(** * TechStore storefront: cart, catalogue search and form validation

    A shallow embedding of the three scripts of the storefront
    ([js/cart.js], [js/validation.js] and the main script with the
    [ProductManager] class) and the properties its specification states
    about them.

    Conventions of the embedding.
    - A JavaScript string is the list of its UTF-16 code units
      ([jsstring]); [length], [trim], [includes] and the regular
      expressions all work on code units, as they do in the engine (none
      of the patterns carries the [u] flag).  [toLowerCase] depends on
      the Unicode case tables of the engine, which are no part of the
      scripts: the search takes it as a parameter.
    - Numbers are IEEE 754 doubles.  The model holds the integer-valued
      ones ([Z]): product ids, the whole-rouble prices of the catalogue
      and quantities; the sums and products of [calculateTotal] and
      [getItemCount] are rounded as the engine rounds them ([number]).
      The [quantity + 1] of [addProduct] is written as it is in the
      script: it is the engine's value for a quantity below [2 ^ 53].
      Fractions are outside the model.
    - [null] results are [None]; an exception that the code catches is an
      explicit [None]/error branch of the called primitive.
    - The objects the code mutates ([this.items], [localStorage],
      the console) are threaded explicitly through a record.
    - Writes to the page (DOM) by the rendering glue are left out, except
      in [validateForm], where they are the only trace of which fields
      were looked at. *)

From Stdlib Require Import ZArith NArith Lia String Ascii.
From Stdlib Require Import Decimal DecimalN DecimalFacts.
From stdpp Require Import base list option numbers gmap.

#[local] Set Warnings "-register-all".

Local Open Scope N_scope.

(** ** JavaScript strings *)

Definition jsstring : Type := list N.

(** Reads a source-text literal (UTF-8 in this file) as UTF-16 code units,
    so that the literals of the scripts can be written as they are. *)
Fixpoint utf16 (s : string) : jsstring :=
  match s with
  | EmptyString => []
  | String a r =>
    let b := N_of_ascii a in
    if b <? 128 then b :: utf16 r
    else if b <? 224 then
      match r with
      | String a1 r1 => ((b - 192) * 64 + (N_of_ascii a1 - 128)) :: utf16 r1
      | EmptyString => []
      end
    else if b <? 240 then
      match r with
      | String a1 (String a2 r2) =>
        ((b - 224) * 4096 + (N_of_ascii a1 - 128) * 64 + (N_of_ascii a2 - 128))
          :: utf16 r2
      | _ => []
      end
    else
      match r with
      | String a1 (String a2 (String a3 r3)) =>
        let cp := (b - 240) * 262144 + (N_of_ascii a1 - 128) * 4096
                  + (N_of_ascii a2 - 128) * 64 + (N_of_ascii a3 - 128) in
        (55296 + (cp - 65536) / 1024) :: (56320 + (cp - 65536) mod 1024)
          :: utf16 r3
      | _ => []
      end
  end.

(** WhiteSpace and LineTerminator code units: what [String.prototype.trim]
    strips and what [\s] matches. *)
Definition is_js_space (c : N) : bool :=
  ((9 <=? c) && (c <=? 13)) || (c =? 32) || (c =? 160) || (c =? 5760)
  || ((8192 <=? c) && (c <=? 8202)) || (c =? 8232) || (c =? 8233)
  || (c =? 8239) || (c =? 8287) || (c =? 12288) || (c =? 65279).

Fixpoint trimStart (s : jsstring) : jsstring :=
  match s with
  | [] => []
  | c :: r => if is_js_space c then trimStart r else s
  end.

Definition trimEnd (s : jsstring) : jsstring := rev (trimStart (rev s)).

Definition trim (s : jsstring) : jsstring := trimEnd (trimStart s).

(** Truthiness of a string, a number and an optional value. *)
Definition truthy_str (s : jsstring) : bool :=
  match s with [] => false | _ :: _ => true end.

Definition truthy_num (z : Z) : bool := negb (z =? 0)%Z.

(** ** Numbers

    The value of an arithmetic expression over integer-valued doubles:
    again such a double, an infinity or [NaN].  A [Z] stands for the
    double of that value, so only for an integer that is one; the two
    zeros are not told apart. *)
Inductive number : Type :=
  | finite (z : Z)
  | infinity (negative : bool)
  | NaN.

Coercion finite : Z >-> number.

(** The double nearest to the integer [z], ties to the even significand of
    53 bits; an infinity from [2 ^ 1024] on. *)
Definition round_double (z : Z) : number :=
  let a := Z.abs z in
  if (a <=? 2 ^ 53)%Z then finite z
  else
    let k := (Z.log2 a - 52)%Z in
    let q := Z.shiftr a k in
    let r := Z.land a (Z.ones k) in
    let half := (2 ^ (k - 1))%Z in
    let q' := if (half <? r)%Z || ((r =? half)%Z && Z.odd q) then (q + 1)%Z
              else q in
    let m := Z.shiftl q' k in
    if (2 ^ 1024 <=? m)%Z then infinity (z <? 0)%Z
    else finite (Z.sgn z * m).

(** [x + y] *)
Definition Number_add (x y : number) : number :=
  match x, y with
  | NaN, _ | _, NaN => NaN
  | infinity s, infinity t => if Bool.eqb s t then infinity s else NaN
  | infinity s, finite _ | finite _, infinity s => infinity s
  | finite a, finite b => round_double (a + b)
  end.

(** [x * y] *)
Definition Number_multiply (x y : number) : number :=
  match x, y with
  | NaN, _ | _, NaN => NaN
  | infinity s, infinity t => infinity (xorb s t)
  | infinity s, finite a | finite a, infinity s =>
    if (a =? 0)%Z then NaN else infinity (xorb s (a <? 0)%Z)
  | finite a, finite b => round_double (a * b)
  end.

Fixpoint startsWith (s q : jsstring) {struct q} : bool :=
  match q, s with
  | [], _ => true
  | _ :: _, [] => false
  | a :: q', b :: s' => (a =? b) && startsWith s' q'
  end.

(** [s.includes(q)]: [q] occurs in [s] as a contiguous run of code units. *)
Fixpoint includes (s q : jsstring) : bool :=
  startsWith s q
  || match s with
     | [] => false
     | _ :: s' => includes s' q
     end.

(** Lower-casing of one code unit of the Basic Latin block or of the
    Cyrillic block U+0400 to U+045F, the alphabets of the catalogue. *)
Definition lower_unit (c : N) : N :=
  if (65 <=? c) && (c <=? 90) then c + 32
  else if (1024 <=? c) && (c <=? 1039) then c + 80
  else if (1040 <=? c) && (c <=? 1071) then c + 32
  else c.

(** Text of these two blocks only.  The engine lower-cases it one code
    unit at a time: the letters whose lower case depends on the context
    or is longer than one code unit are in other blocks. *)
Definition basic_text (s : jsstring) : bool :=
  forallb (fun c => (c <? 128) || ((1024 <=? c) && (c <=? 1119))) s.

(** [toLowerCase] as far as the examples need it: on [basic_text]. *)
Definition toLowerCase_basic (s : jsstring) : jsstring := map lower_unit s.

(** Decimal digits of a natural number, most significant first. *)
Fixpoint uint_units (d : Decimal.uint) : jsstring :=
  match d with
  | Decimal.Nil => []
  | Decimal.D0 d => 48 :: uint_units d
  | Decimal.D1 d => 49 :: uint_units d
  | Decimal.D2 d => 50 :: uint_units d
  | Decimal.D3 d => 51 :: uint_units d
  | Decimal.D4 d => 52 :: uint_units d
  | Decimal.D5 d => 53 :: uint_units d
  | Decimal.D6 d => 54 :: uint_units d
  | Decimal.D7 d => 55 :: uint_units d
  | Decimal.D8 d => 56 :: uint_units d
  | Decimal.D9 d => 57 :: uint_units d
  end.

(** [String(z)] for an integer: an optional minus sign and the digits. *)
Definition Number_toString (z : Z) : jsstring :=
  if (z <? 0)%Z then 45 :: uint_units (N.to_uint (Z.abs_N z))
  else uint_units (N.to_uint (Z.abs_N z)).

(** ** JSON text: [JSON.stringify] and [JSON.parse]

    The values JSON text denotes.  A number is kept as the decimal it was
    written as, [JNum m e] standing for m * 10^e; an object is the list of
    its members in the order of the text. *)
Inductive JsVal : Type :=
  | JNull
  | JBool (b : bool)
  | JNum (m e : Z)
  | JStr (s : jsstring)
  | JArr (elements : list JsVal)
  | JObj (members : list (jsstring * JsVal)).

Definition hex_digit (n : N) : N := if n <? 10 then 48 + n else 87 + n.

Definition unicode_escape (c : N) : jsstring :=
  [92; 117; hex_digit (c / 4096 mod 16); hex_digit (c / 256 mod 16);
   hex_digit (c / 16 mod 16); hex_digit (c mod 16)].

Definition is_high_surrogate (c : N) : bool := (55296 <=? c) && (c <=? 56319).
Definition is_low_surrogate (c : N) : bool := (56320 <=? c) && (c <=? 57343).

(** One code unit inside a quoted string: the short escapes, [\u00xx] for
    the other control characters, anything else as it is. *)
Definition quote_unit (c : N) : jsstring :=
  if c =? 8 then [92; 98]
  else if c =? 9 then [92; 116]
  else if c =? 10 then [92; 110]
  else if c =? 12 then [92; 102]
  else if c =? 13 then [92; 114]
  else if c =? 34 then [92; 34]
  else if c =? 92 then [92; 92]
  else if c <? 32 then unicode_escape c
  else [c].

(** A surrogate pair is written as it is, a lone surrogate as an escape. *)
Fixpoint quote_units (s : jsstring) : jsstring :=
  match s with
  | [] => []
  | c :: r =>
    if is_high_surrogate c then
      match r with
      | d :: r' =>
        if is_low_surrogate d then c :: d :: quote_units r'
        else unicode_escape c ++ quote_units r
      | [] => unicode_escape c
      end
    else if is_low_surrogate c then unicode_escape c ++ quote_units r
    else quote_unit c ++ quote_units r
  end.

Definition quote (s : jsstring) : jsstring := 34 :: quote_units s ++ [34].

(** An integer is written by its digits; a decimal exponent, which no
    value of a cart entry has, is written in exponent form. *)
Definition stringify_number (m e : Z) : jsstring :=
  Number_toString m ++ (if (e =? 0)%Z then [] else 101 :: Number_toString e).

Fixpoint join (sep : jsstring) (parts : list jsstring) : jsstring :=
  match parts with
  | [] => []
  | [p] => p
  | p :: ps => p ++ sep ++ join sep ps
  end.

(** [JSON.stringify(v)] without indentation. *)
Fixpoint JSON_stringify (v : JsVal) : jsstring :=
  match v with
  | JNull => utf16 "null"
  | JBool true => utf16 "true"
  | JBool false => utf16 "false"
  | JNum m e => stringify_number m e
  | JStr s => quote s
  | JArr l => 91 :: join [44] (map JSON_stringify l) ++ [93]
  | JObj l =>
    123 :: join [44] (map (fun kv => quote (fst kv) ++ 58 :: JSON_stringify (snd kv)) l)
        ++ [125]
  end.

Definition is_json_space (c : N) : bool :=
  (c =? 32) || (c =? 9) || (c =? 10) || (c =? 13).

Fixpoint skip_ws (s : jsstring) : jsstring :=
  match s with
  | [] => []
  | c :: r => if is_json_space c then skip_ws r else s
  end.

Definition hex_value (c : N) : option N :=
  if (48 <=? c) && (c <=? 57) then Some (c - 48)
  else if (97 <=? c) && (c <=? 102) then Some (c - 87)
  else if (65 <=? c) && (c <=? 70) then Some (c - 55)
  else None.

Definition hex4 (a b c d : N) : option N :=
  match hex_value a, hex_value b, hex_value c, hex_value d with
  | Some x, Some y, Some z, Some w => Some (x * 4096 + y * 256 + z * 16 + w)
  | _, _, _, _ => None
  end.

Definition simple_escape (c : N) : option N :=
  if c =? 34 then Some 34
  else if c =? 92 then Some 92
  else if c =? 47 then Some 47
  else if c =? 98 then Some 8
  else if c =? 102 then Some 12
  else if c =? 110 then Some 10
  else if c =? 114 then Some 13
  else if c =? 116 then Some 9
  else None.

Definition push_unit (c : N) (r : option (jsstring * jsstring))
  : option (jsstring * jsstring) :=
  match r with
  | Some (str, rest) => Some (c :: str, rest)
  | None => None
  end.

(** The code units of a string literal after its opening quote, up to and
    including the closing quote; [None] is a syntax error. *)
Fixpoint parse_string_units (s : jsstring) : option (jsstring * jsstring) :=
  match s with
  | [] => None
  | c :: r =>
    if c =? 34 then Some ([], r)
    else if c =? 92 then
      match r with
      | [] => None
      | e :: r1 =>
        if e =? 117 then
          match r1 with
          | a :: b :: c' :: d :: r2 =>
            match hex4 a b c' d with
            | Some u => push_unit u (parse_string_units r2)
            | None => None
            end
          | _ => None
          end
        else
          match simple_escape e with
          | Some u => push_unit u (parse_string_units r1)
          | None => None
          end
      end
    else if c <? 32 then None
    else push_unit c (parse_string_units r)
  end.

Definition is_digit (c : N) : bool := (48 <=? c) && (c <=? 57).

Definition digit_cons (c : N) (d : Decimal.uint) : Decimal.uint :=
  if c =? 48 then Decimal.D0 d
  else if c =? 49 then Decimal.D1 d
  else if c =? 50 then Decimal.D2 d
  else if c =? 51 then Decimal.D3 d
  else if c =? 52 then Decimal.D4 d
  else if c =? 53 then Decimal.D5 d
  else if c =? 54 then Decimal.D6 d
  else if c =? 55 then Decimal.D7 d
  else if c =? 56 then Decimal.D8 d
  else Decimal.D9 d.

(** The longest run of decimal digits at the head of [s]. *)
Fixpoint read_digits (s : jsstring) : Decimal.uint * jsstring :=
  match s with
  | [] => (Decimal.Nil, [])
  | c :: r =>
    if is_digit c then
      let '(d, r') := read_digits r in (digit_cons c d, r')
    else (Decimal.Nil, s)
  end.

Definition read_sign (s : jsstring) : bool * jsstring :=
  match s with
  | c :: r => if c =? 45 then (true, r) else (false, s)
  | [] => (false, s)
  end.

Definition read_fraction (s : jsstring) : option (Decimal.uint * jsstring) :=
  match s with
  | c :: r =>
    if c =? 46 then
      match read_digits r with
      | (Decimal.Nil, _) => None
      | (fp, r') => Some (fp, r')
      end
    else Some (Decimal.Nil, s)
  | [] => Some (Decimal.Nil, s)
  end.

Definition signed (neg : bool) (d : Decimal.uint) : Z :=
  if neg then (- Z.of_N (N.of_uint d))%Z else Z.of_N (N.of_uint d).

Definition read_exponent (s : jsstring) : option (Z * jsstring) :=
  match s with
  | c :: r =>
    if (c =? 101) || (c =? 69) then
      let '(neg, r1) :=
        match r with
        | c1 :: r' =>
          if c1 =? 45 then (true, r') else if c1 =? 43 then (false, r') else (false, r)
        | [] => (false, r)
        end in
      match read_digits r1 with
      | (Decimal.Nil, _) => None
      | (ex, r2) => Some (signed neg ex, r2)
      end
    else Some (0%Z, s)
  | [] => Some (0%Z, s)
  end.

(** A JSON number: optional minus, integer part without a leading zero,
    optional fraction, optional exponent. *)
Definition parse_number (s : jsstring) : option (JsVal * jsstring) :=
  let '(neg, s1) := read_sign s in
  let '(ip, s2) := read_digits s1 in
  match ip with
  | Decimal.Nil => None
  | Decimal.D0 (Decimal.D0 _ | Decimal.D1 _ | Decimal.D2 _ | Decimal.D3 _
                | Decimal.D4 _ | Decimal.D5 _ | Decimal.D6 _ | Decimal.D7 _
                | Decimal.D8 _ | Decimal.D9 _) => None
  | _ =>
    match read_fraction s2 with
    | None => None
    | Some (fp, s3) =>
      match read_exponent s3 with
      | None => None
      | Some (ex, s4) =>
        Some (JNum (signed neg (Decimal.app ip fp))
                   (ex - Z.of_nat (Decimal.nb_digits fp)), s4)
      end
    end
  end.

Definition expect_word (w : jsstring) (v : JsVal) (s : jsstring)
  : option (JsVal * jsstring) :=
  if startsWith s w then Some (v, drop (length w) s) else None.

(** Recursive descent over the text; [fuel] bounds the number of nested
    calls, two per code unit being enough (see [JSON_parse]). *)
Fixpoint parse_value (fuel : nat) (s : jsstring) : option (JsVal * jsstring) :=
  match fuel with
  | O => None
  | S fuel =>
    match s with
    | [] => None
    | c :: r =>
      if c =? 34 then
        match parse_string_units r with
        | Some (str, r1) => Some (JStr str, r1)
        | None => None
        end
      else if c =? 91 then
        match skip_ws r with
        | [] => None
        | d :: r1 =>
          if d =? 93 then Some (JArr [], r1)
          else
            match parse_elements fuel (d :: r1) with
            | Some (vs, r2) => Some (JArr vs, r2)
            | None => None
            end
        end
      else if c =? 123 then
        match skip_ws r with
        | [] => None
        | d :: r1 =>
          if d =? 125 then Some (JObj [], r1)
          else
            match parse_members fuel (d :: r1) with
            | Some (ms, r2) => Some (JObj ms, r2)
            | None => None
            end
        end
      else if c =? 110 then expect_word (utf16 "null") JNull s
      else if c =? 116 then expect_word (utf16 "true") (JBool true) s
      else if c =? 102 then expect_word (utf16 "false") (JBool false) s
      else parse_number s
    end
  end
with parse_elements (fuel : nat) (s : jsstring)
  : option (list JsVal * jsstring) :=
  match fuel with
  | O => None
  | S fuel =>
    match parse_value fuel s with
    | None => None
    | Some (v, r) =>
      match skip_ws r with
      | [] => None
      | c :: r1 =>
        if c =? 44 then
          match parse_elements fuel (skip_ws r1) with
          | Some (vs, r2) => Some (v :: vs, r2)
          | None => None
          end
        else if c =? 93 then Some ([v], r1)
        else None
      end
    end
  end
with parse_members (fuel : nat) (s : jsstring)
  : option (list (jsstring * JsVal) * jsstring) :=
  match fuel with
  | O => None
  | S fuel =>
    match s with
    | [] => None
    | q :: r =>
      if q =? 34 then
        match parse_string_units r with
        | None => None
        | Some (key, r1) =>
          match skip_ws r1 with
          | [] => None
          | c :: r2 =>
            if c =? 58 then
              match parse_value fuel (skip_ws r2) with
              | None => None
              | Some (v, r3) =>
                match skip_ws r3 with
                | [] => None
                | c1 :: r4 =>
                  if c1 =? 44 then
                    match parse_members fuel (skip_ws r4) with
                    | Some (ms, r5) => Some ((key, v) :: ms, r5)
                    | None => None
                    end
                  else if c1 =? 125 then Some ([(key, v)], r4)
                  else None
                end
              end
            else None
          end
        end
      else None
    end
  end.

(** [JSON.parse(text)]: one value between optional white space; [None]
    stands for the [SyntaxError] it throws. *)
Definition JSON_parse (text : jsstring) : option JsVal :=
  match parse_value (2 * length text + 2) (skip_ws text) with
  | Some (v, r) =>
    match skip_ws r with
    | [] => Some v
    | _ :: _ => None
    end
  | None => None
  end.

(** ** Regular expressions

    The patterns of the validator are anchored at both ends ([^...$]) and
    are only ever used through [test], so a pattern is the set of strings
    it matches in full.  [Both] is intersection: a lookahead [(?=r)] at the
    start of a pattern requires a prefix of the string to match [r]. *)
Inductive regex : Type :=
  | Never
  | Empty
  | Unit (accept : N -> bool)
  | Seq (r1 r2 : regex)
  | Alt (r1 r2 : regex)
  | Star (r : regex)
  | Both (r1 r2 : regex).

Fixpoint nullable (r : regex) : bool :=
  match r with
  | Never => false
  | Empty => true
  | Unit _ => false
  | Seq r1 r2 => nullable r1 && nullable r2
  | Alt r1 r2 => nullable r1 || nullable r2
  | Star _ => true
  | Both r1 r2 => nullable r1 && nullable r2
  end.

(** Brzozowski derivative: what must follow after reading [c]. *)
Fixpoint derive (c : N) (r : regex) : regex :=
  match r with
  | Never => Never
  | Empty => Never
  | Unit accept => if accept c then Empty else Never
  | Seq r1 r2 =>
    if nullable r1 then Alt (Seq (derive c r1) r2) (derive c r2)
    else Seq (derive c r1) r2
  | Alt r1 r2 => Alt (derive c r1) (derive c r2)
  | Star r1 => Seq (derive c r1) (Star r1)
  | Both r1 r2 => Both (derive c r1) (derive c r2)
  end.

(** [/^r$/.test(s)] *)
Definition test (r : regex) (s : jsstring) : bool :=
  nullable (fold_left (fun r c => derive c r) s r).

Definition Plus (r : regex) : regex := Seq r (Star r).
Definition Opt (r : regex) : regex := Alt Empty r.

(** [r{n}] and [r{n,}] *)
Fixpoint Times (n : nat) (r : regex) : regex :=
  match n with
  | O => Empty
  | S n => Seq r (Times n r)
  end.
Definition AtLeast (n : nat) (r : regex) : regex := Seq (Times n r) (Star r).

Definition any_unit : N -> bool := fun _ => true.
Definition is_line_terminator (c : N) : bool :=
  (c =? 10) || (c =? 13) || (c =? 8232) || (c =? 8233).
(** [.] *)
Definition dot : N -> bool := fun c => negb (is_line_terminator c).
(** [(?=r)k] at the start of an anchored pattern *)
Definition Ahead (r k : regex) : regex := Both (Seq r (Star (Unit any_unit))) k.

Definition is_lower (c : N) : bool := (97 <=? c) && (c <=? 122).
Definition is_upper (c : N) : bool := (65 <=? c) && (c <=? 90).
Definition lit (c : N) : regex := Unit (N.eqb c).

(** ** The catalogue: class [ProductManager] of the main script *)
Module ProductManager.

Record Product : Type := {
  id : Z;
  name : jsstring;
  description : jsstring;
  price : Z;
  category : jsstring;
  image : jsstring
}.

Record State : Type := {
  products : list Product;
  filteredProducts : list Product
}.

(** [constructor] *)
Definition new : State := {| products := []; filteredProducts := [] |}.

(** The product list that [loadProducts] installs. *)
Definition catalogue : list Product := [
  {| id := 1; name := utf16 "iPhone 14 Pro";
     description := utf16 "Новейший смартфон от Apple с улучшенной камерой";
     price := 99990; category := utf16 "smartphones";
     image := utf16 "images/iphnoe14.png" |};
  {| id := 2; name := utf16 "Samsung Galaxy S23";
     description := utf16 "Флагманский смартфон от Samsung с мощным процессором";
     price := 79990; category := utf16 "smartphones";
     image := utf16 "images/samsunhgs23.png" |};
  {| id := 3; name := utf16 "MacBook Air M2";
     description := utf16 "Легкий и мощный ноутбук от Apple";
     price := 129990; category := utf16 "laptops";
     image := utf16 "images/macbookarim2.png" |};
  {| id := 4; name := utf16 "Dell XPS 13";
     description := utf16 "Компактный ноутбук с безрамочным дисплеем";
     price := 89990; category := utf16 "laptops";
     image := utf16 "images/dellXPS13.png" |};
  {| id := 5; name := utf16 "iPad Pro";
     description := utf16 "Мощный планшет для работы и творчества";
     price := 74990; category := utf16 "tablets";
     image := utf16 "images/Ipadpro.png" |};
  {| id := 6; name := utf16 "Samsung Galaxy Tab S8";
     description := utf16 "Планшет с S-Pen для заметок и рисования";
     price := 54990; category := utf16 "tablets";
     image := utf16 "images/samsunggalaxy.png" |};
  {| id := 7; name := utf16 "AirPods Pro";
     description := utf16 "Беспроводные наушники с шумоподавлением";
     price := 24990; category := utf16 "accessories";
     image := utf16 "images/airposd.png" |};
  {| id := 8; name := utf16 "Apple Watch Series 8";
     description := utf16 "Умные часы с функциями для здоровья";
     price := 39990; category := utf16 "accessories";
     image := utf16 "images/apllewatch.png" |}
].

(** [loadProducts], once its timer has fired. *)
Definition loadProducts (pm : State) : list Product * State :=
  (catalogue, {| products := catalogue; filteredProducts := catalogue |}).

Definition filterByCategory (cat : jsstring) (pm : State)
  : list Product * State :=
  let filtered :=
    if bool_decide (cat = utf16 "all") then products pm
    else filter (fun product => category product = cat) (products pm) in
  (filtered, {| products := products pm; filteredProducts := filtered |}).

Section engine.
(** [String.prototype.toLowerCase] of the engine. *)
Variable toLowerCase : jsstring → jsstring.

Definition searchProducts (query : jsstring) (pm : State)
  : list Product * State :=
  if negb (truthy_str (trim query)) then
    (products pm,
     {| products := products pm; filteredProducts := products pm |})
  else
    let lowerCaseQuery := toLowerCase query in
    let filtered :=
      filter (fun product =>
                includes (toLowerCase (name product)) lowerCaseQuery
                || includes (toLowerCase (description product)) lowerCaseQuery)
             (products pm) in
    (filtered, {| products := products pm; filteredProducts := filtered |}).

End engine.

Definition getProductById (i : Z) (pm : State) : option Product :=
  snd <$> list_find (fun product => id product = i) (products pm).

End ProductManager.

(** ** The cart: class [ProductCart] of [js/cart.js]

    Every mutating method ends with [this.saveToStorage()] and
    [this.updateCartUI()]; the latter reads the cart and writes to the
    page only, and is left out. *)
Module ProductCart.
Import ProductManager.

(** [{...product, quantity}] *)
Record CartItem : Type := {
  product :> Product;
  quantity : Z
}.

(** The browser's [localStorage] as far as the cart sees it: the value
    under the key ['techstore_cart'], whether access is denied (every
    call throws) and how many code units a value may have. *)
Record LocalStorage : Type := {
  slot : option jsstring;
  blocked : bool;
  quota : option nat
}.

(** [localStorage.getItem('techstore_cart')]; [None] when it throws. *)
Definition getItem (ls : LocalStorage) : option (option jsstring) :=
  if blocked ls then None else Some (slot ls).

(** [localStorage.setItem('techstore_cart', value)]; [None] when it
    throws, the stored value being left as it was. *)
Definition setItem (value : jsstring) (ls : LocalStorage)
  : option LocalStorage :=
  if blocked ls then None
  else if match quota ls with
          | Some q => bool_decide (q < length value)%nat
          | None => false
          end then None
  else Some {| slot := Some value; blocked := blocked ls; quota := quota ls |}.

(** A cart object: [this.items], and the two collaborators its methods
    reach.  [this.items] is a list of entries while the cart's own
    methods maintain it, and whatever [JSON.parse] returned after a
    load, hence the parameter. *)
Record State (I : Type) : Type := {
  items : I;
  localStorage : LocalStorage;
  console : list jsstring
}.
Arguments items {I} _.
Arguments localStorage {I} _.
Arguments console {I} _.

Definition Cart : Type := State (list CartItem).

Definition with_items {I J : Type} (l : J) (c : State I) : State J :=
  {| items := l; localStorage := localStorage c; console := console c |}.

(** [console.error(message, error)] *)
Definition console_error {I : Type} (message : jsstring) (c : State I)
  : State I :=
  {| items := items c; localStorage := localStorage c;
     console := console c ++ [message] |}.

(** A cart entry as the JavaScript object it is. *)
Definition js_of_item (item : CartItem) : JsVal :=
  JObj [ (utf16 "id", JNum (id item) 0);
         (utf16 "name", JStr (name item));
         (utf16 "description", JStr (description item));
         (utf16 "price", JNum (price item) 0);
         (utf16 "category", JStr (category item));
         (utf16 "image", JStr (image item));
         (utf16 "quantity", JNum (quantity item) 0) ].

Definition js_of_items (l : list CartItem) : JsVal := JArr (map js_of_item l).

(** The messages of the two [console.error] calls. *)
Definition save_error : jsstring := utf16 "Ошибка сохранения корзины:".
Definition load_error : jsstring := utf16 "Ошибка загрузки корзины:".

(** The leading [product &&] is true of every [Product]. *)
Definition validateProduct (p : Product) : bool :=
  truthy_num (id p) && truthy_str (name p) && (0 <? price p)%Z.

Definition saveToStorage (c : Cart) : Cart :=
  match setItem (JSON_stringify (js_of_items (items c))) (localStorage c) with
  | Some ls =>
    {| items := items c; localStorage := ls; console := console c |}
  | None => console_error save_error c
  end.

Definition loadFromStorage (c : State JsVal) : State JsVal :=
  match getItem (localStorage c) with
  | Some (Some storedCart) =>
    if truthy_str storedCart then
      match JSON_parse storedCart with
      | Some v => with_items v c
      | None =>
        with_items (JArr []) (console_error load_error c)
      end
    else c
  | Some None => c
  | None => with_items (JArr []) (console_error load_error c)
  end.

(** [new ProductCart()] *)
Definition new (ls : LocalStorage) (log : list jsstring) : State JsVal :=
  loadFromStorage {| items := JArr []; localStorage := ls; console := log |}.

Definition set_quantity (q : Z) (item : CartItem) : CartItem :=
  {| product := product item; quantity := q |}.

Definition addProduct (p : Product) (c : Cart) : bool * Cart :=
  if negb (validateProduct p) then (false, c)
  else
    let items' :=
      match list_find (fun item : CartItem => id item = id p) (items c) with
      | Some (i, existingItem) =>
        <[ i := set_quantity (quantity existingItem + 1) existingItem ]> (items c)
      | None => items c ++ [ {| product := p; quantity := 1 |} ]
      end in
    (true, saveToStorage (with_items items' c)).

Definition removeProduct (productId : Z) (c : Cart) : bool * Cart :=
  let initialLength := length (items c) in
  let c' := with_items (filter (fun item : CartItem => id item ≠ productId) (items c)) c in
  if bool_decide (length (items c') ≠ initialLength) then (true, saveToStorage c')
  else (false, c').

Definition updateQuantity (productId : Z) (q : Z) (c : Cart) : bool * Cart :=
  if (q <=? 0)%Z then removeProduct productId c
  else
    match list_find (fun item : CartItem => id item = productId) (items c) with
    | Some (i, item) =>
      (true, saveToStorage (with_items (<[ i := set_quantity q item ]> (items c)) c))
    | None => (false, c)
    end.

Definition clear (c : Cart) : Cart := saveToStorage (with_items [] c).

Definition calculateTotal (c : Cart) : number :=
  fold_left (fun total (item : CartItem) =>
               Number_add total (Number_multiply (price item) (quantity item)))
            (items c) (finite 0).

Definition getItemCount (c : Cart) : number :=
  fold_left (fun count (item : CartItem) => Number_add count (quantity item))
            (items c) (finite 0).

End ProductCart.

(** ** Form validation: class [FormValidator] of [js/validation.js] *)
Module FormValidator.

Inductive PatternName : Type := email | phone | name | password.

Fixpoint Concat (rs : list regex) : regex :=
  match rs with
  | [] => Empty
  | [r] => r
  | r :: rs => Seq r (Concat rs)
  end.

(** [[^\s@]] *)
Definition email_unit (c : N) : bool := negb (is_js_space c || (c =? 64)).
(** [[a-zA-Zа-яА-ЯёЁ\s\-']] *)
Definition name_unit (c : N) : bool :=
  is_lower c || is_upper c || ((1072 <=? c) && (c <=? 1103))
  || ((1040 <=? c) && (c <=? 1071)) || (c =? 1105) || (c =? 1025)
  || is_js_space c || (c =? 45) || (c =? 39).
(** [[a-zA-Z\d]] *)
Definition password_unit (c : N) : bool := is_lower c || is_upper c || is_digit c.

(** [this.patterns] *)
Definition patterns (p : PatternName) : regex :=
  match p with
  | email =>
    (* /^[^\s@]+@[^\s@]+\.[^\s@]+$/ *)
    Concat [Plus (Unit email_unit); lit 64; Plus (Unit email_unit); lit 46;
            Plus (Unit email_unit)]
  | phone =>
    (* /^\+7\s?\(?\d{3}\)?\s?\d{3}-?\d{2}-?\d{2}$/ *)
    Concat [lit 43; lit 55; Opt (Unit is_js_space); Opt (lit 40);
            Times 3 (Unit is_digit); Opt (lit 41); Opt (Unit is_js_space);
            Times 3 (Unit is_digit); Opt (lit 45); Times 2 (Unit is_digit);
            Opt (lit 45); Times 2 (Unit is_digit)]
  | name =>
    (* /^[a-zA-Zа-яА-ЯёЁ\s\-']+$/ *)
    Plus (Unit name_unit)
  | password =>
    (* /^(?=.*[a-z])(?=.*[A-Z])(?=.*\d)[a-zA-Z\d]{8,}$/ *)
    Ahead (Seq (Star (Unit dot)) (Unit is_lower))
      (Ahead (Seq (Star (Unit dot)) (Unit is_upper))
         (Ahead (Seq (Star (Unit dot)) (Unit is_digit))
            (AtLeast 8 (Unit password_unit))))
  end.

(** [this.messages] *)
Definition messages_required : jsstring :=
  utf16 "Это поле обязательно для заполнения".

Definition messages (p : PatternName) : jsstring :=
  match p with
  | email => utf16 "Введите корректный email адрес"
  | phone => utf16 "Введите телефон в формате +7 (XXX) XXX-XX-XX"
  | name => utf16 "Имя может содержать только буквы и дефисы"
  | password =>
    utf16 "Пароль должен содержать минимум 8 символов, включая заглавные и строчные буквы и цифры"
  end.

Definition messages_minLength (min : Z) : jsstring :=
  utf16 "Минимальная длина: " ++ Number_toString min ++ utf16 " символов".

Definition messages_maxLength (max : Z) : jsstring :=
  utf16 "Максимальная длина: " ++ Number_toString max ++ utf16 " символов".

(** The rules of one field; an absent property is [None]. *)
Record ValidationRule : Type := {
  required : bool;
  minLength : option Z;
  maxLength : option Z;
  pattern : option PatternName;
  custom : option (jsstring -> bool);
  customMessage : option jsstring
}.

(** [rules.minLength && value.length < rules.minLength] *)
Definition check_minLength (rules : ValidationRule) (value : jsstring)
  : option jsstring :=
  match minLength rules with
  | Some min =>
    if truthy_num min && (Z.of_nat (length value) <? min)%Z
    then Some (messages_minLength min) else None
  | None => None
  end.

(** [rules.maxLength && value.length > rules.maxLength] *)
Definition check_maxLength (rules : ValidationRule) (value : jsstring)
  : option jsstring :=
  match maxLength rules with
  | Some max =>
    if truthy_num max && (max <? Z.of_nat (length value))%Z
    then Some (messages_maxLength max) else None
  | None => None
  end.

(** [rules.pattern && !this.patterns[rules.pattern].test(value)] *)
Definition check_pattern (rules : ValidationRule) (value : jsstring)
  : option jsstring :=
  match pattern rules with
  | Some p => if negb (test (patterns p) value) then Some (messages p) else None
  | None => None
  end.

(** [rules.custom && !rules.custom(value)] *)
Definition check_custom (rules : ValidationRule) (value : jsstring)
  : option jsstring :=
  match custom rules with
  | Some predicate =>
    if negb (predicate value) then
      Some (match customMessage rules with
            | Some message =>
              if truthy_str message then message else utf16 "Неверное значение"
            | None => utf16 "Неверное значение"
            end)
    else None
  | None => None
  end.

(** [validateField(field, rules)], [field] being given by [field.value];
    the result is the error message, [None] for [null]. *)
Definition validateField (field : jsstring) (rules : ValidationRule)
  : option jsstring :=
  let value := trim field in
  if required rules && negb (truthy_str value) then Some messages_required
  else if negb (truthy_str value) then None
  else
    match check_minLength rules value with
    | Some error => Some error
    | None =>
      match check_maxLength rules value with
      | Some error => Some error
      | None =>
        match check_pattern rules value with
        | Some error => Some error
        | None => check_custom rules value
        end
      end
    end.

(** A form: its named controls in document order, each with its name and
    its current value. *)
Definition Form : Type := list (jsstring * jsstring).

(** The field names that the selector [[name="..."]] holds as they are:
    without the quote, the backslash, the line breaks, NUL and the
    surrogates, which the CSS syntax reads as something else. *)
Definition plain_name (fieldName : jsstring) : bool :=
  forallb (fun c => negb ((c =? 0) || (c =? 10) || (c =? 12) || (c =? 13)
                          || (c =? 34) || (c =? 92)
                          || ((55296 <=? c) && (c <=? 57343))))
          fieldName.

(** [form.querySelector('[name="..."]')] for a [plain_name]: the first
    control of that name and its position.  For another name the selector
    may be malformed or select by a different name. *)
Definition querySelector (form : Form) (fieldName : jsstring)
  : option (nat * (jsstring * jsstring)) :=
  list_find (fun field => fst field = fieldName) form.

(** What [validateForm] writes to the page, by control. *)
Inductive DomEffect : Type :=
  | showFieldError (field : nat) (message : jsstring)
  | clearFieldError (field : nat).

(** The value [validateForm] returns ([isValid]), its local [errors]
    object as it is on return and the writes to the page in order. *)
Record Outcome : Type := {
  isValid : bool;
  errors : gmap jsstring jsstring;
  page : list DomEffect
}.

Definition validateForm_step (form : Form) (acc : Outcome)
    (entry : jsstring * ValidationRule) : Outcome :=
  let '(fieldName, rules) := entry in
  match querySelector form fieldName with
  | Some (i, field) =>
    match validateField (snd field) rules with
    | Some ((_ :: _) as error) =>
      {| isValid := false;
         errors := <[ fieldName := error ]> (errors acc);
         page := page acc ++ [showFieldError i error] |}
    | _ =>
      {| isValid := isValid acc; errors := errors acc;
         page := page acc ++ [clearFieldError i] |}
    end
  | None => acc
  end.

(** [validateForm(form, fieldsRules)], [fieldsRules] being given by
    [Object.entries(fieldsRules)]. *)
Definition validateForm (form : Form)
    (fieldsRules : list (jsstring * ValidationRule)) : Outcome :=
  fold_left (validateForm_step form) fieldsRules
            {| isValid := true; errors := ∅; page := [] |}.

End FormValidator.

(** ** The page: the functions and callbacks that drive the three classes

    [addToCart] of [js/cart.js], the checkout handler that [initCart]
    attaches, the search handler of [initSearch] and the rules of the
    registration form.  What a handler
    writes to the page is left out; what it shows through [alert] or
    [console.log] is returned. *)
Module Page.
Import ProductManager ProductCart.

Inductive Notice : Type :=
  | consoleLog (message : jsstring)
  | alert (message : jsstring).

Definition message_added (product : Product) : jsstring :=
  utf16 "Товар " ++ 34 :: name product ++ 34 :: utf16 " добавлен в корзину".
Definition message_add_failed : jsstring :=
  utf16 "Не удалось добавить товар в корзину".
Definition message_not_found : jsstring := utf16 "Товар не найден".
Definition message_cart_empty : jsstring :=
  utf16 "Корзина пуста. Добавьте товары перед оформлением заказа.".
Definition message_order_placed : jsstring :=
  utf16 "Заказ успешно оформлен! Спасибо за покупку.".

(** [addToCart(productId)], over the global [productManager] and [cart];
    [showErrorMessage] is [alert]. *)
Definition addToCart (productId : Z) (pm : ProductManager.State) (c : Cart)
  : Notice * Cart :=
  match getProductById productId pm with
  | Some product =>
    let '(success, c') := addProduct product c in
    if success then (consoleLog (message_added product), c')
    else (alert message_add_failed, c')
  | None => (alert message_not_found, c)
  end.

(** The click handler of the checkout button: the message it alerts and
    the cart it leaves. *)
Definition onCheckout (c : Cart) : jsstring * Cart :=
  if bool_decide (length (items c) = 0%nat) then (message_cart_empty, c)
  else (message_order_placed, clear c).

(** The submit handler of the search form, and the body of the delayed
    handler of its input: the query is the trimmed text of the box. *)
Definition onSearch (toLowerCase : jsstring → jsstring) (input : jsstring)
    (pm : ProductManager.State) : list Product * ProductManager.State :=
  let query := trim input in
  searchProducts toLowerCase query pm.

(** [registrationRules] *)
Definition registrationRules
  : list (jsstring * FormValidator.ValidationRule) :=
  [ (utf16 "name",
     {| FormValidator.required := true;
        FormValidator.minLength := Some 2%Z;
        FormValidator.maxLength := Some 50%Z;
        FormValidator.pattern := Some FormValidator.name;
        FormValidator.custom := None;
        FormValidator.customMessage := None |});
    (utf16 "email",
     {| FormValidator.required := true;
        FormValidator.minLength := None; FormValidator.maxLength := None;
        FormValidator.pattern := Some FormValidator.email;
        FormValidator.custom := None;
        FormValidator.customMessage := None |});
    (utf16 "phone",
     {| FormValidator.required := true;
        FormValidator.minLength := None; FormValidator.maxLength := None;
        FormValidator.pattern := Some FormValidator.phone;
        FormValidator.custom := None;
        FormValidator.customMessage := None |});
    (utf16 "password",
     {| FormValidator.required := true;
        FormValidator.minLength := None; FormValidator.maxLength := None;
        FormValidator.pattern := Some FormValidator.password;
        FormValidator.custom := None;
        FormValidator.customMessage := None |}) ].

End Page.

(** ** Vocabulary of the specification *)

Import ProductManager ProductCart.

(** The calls of the cart's public interface that the specification
    quantifies over. *)
Inductive CartCall : Type :=
  | call_add (p : ProductManager.Product)
  | call_remove (productId : Z)
  | call_setQuantity (productId : Z) (q : Z).

Definition perform (c : ProductCart.Cart) (call : CartCall) : ProductCart.Cart :=
  match call with
  | call_add p => snd (ProductCart.addProduct p c)
  | call_remove productId => snd (ProductCart.removeProduct productId c)
  | call_setQuantity productId q => snd (ProductCart.updateQuantity productId q c)
  end.

Definition perform_all (calls : list CartCall) (c : ProductCart.Cart)
  : ProductCart.Cart :=
  fold_left perform calls c.

(** A cart without entries, over any storage and console. *)
Definition empty_cart (ls : ProductCart.LocalStorage) (log : list jsstring)
  : ProductCart.Cart :=
  {| ProductCart.items := []; ProductCart.localStorage := ls;
     ProductCart.console := log |}.

(** The sums of the data model, recomputed entry by entry. *)
Fixpoint sum_price_times_quantity (l : list ProductCart.CartItem) : Z :=
  match l with
  | [] => 0
  | item :: l =>
    ProductManager.price item * ProductCart.quantity item
    + sum_price_times_quantity l
  end%Z.

Fixpoint sum_quantity (l : list ProductCart.CartItem) : Z :=
  match l with
  | [] => 0
  | item :: l => ProductCart.quantity item + sum_quantity l
  end%Z.

(** The sums of the magnitudes of the terms of the two sums: while they
    are at most [2 ^ 53] no addition or multiplication rounds. *)
Fixpoint total_magnitude (l : list ProductCart.CartItem) : Z :=
  match l with
  | [] => 0
  | item :: l =>
    Z.abs (ProductManager.price item * ProductCart.quantity item)
    + total_magnitude l
  end%Z.

Fixpoint count_magnitude (l : list ProductCart.CartItem) : Z :=
  match l with
  | [] => 0
  | item :: l => Z.abs (ProductCart.quantity item) + count_magnitude l
  end%Z.

Definition ids (l : list ProductCart.CartItem) : list Z :=
  map (fun item : ProductCart.CartItem => ProductManager.id item) l.

(** The checks of a field in the order the specification lists them. *)
Inductive Check : Type :=
  | RequiredEmpty | MinLength | MaxLength | PatternMismatch | CustomFailure.

Definition checks_in_order : list Check :=
  [RequiredEmpty; MinLength; MaxLength; PatternMismatch; CustomFailure].

(** Whether a check rejects [value]; a length limit counts when it is set
    and not zero. *)
Definition fails (value : jsstring) (rules : FormValidator.ValidationRule)
    (chk : Check) : bool :=
  match chk with
  | RequiredEmpty => FormValidator.required rules && bool_decide (value = [])
  | MinLength =>
    match FormValidator.minLength rules with
    | Some min => bool_decide (min ≠ 0 ∧ Z.of_nat (length value) < min)%Z
    | None => false
    end
  | MaxLength =>
    match FormValidator.maxLength rules with
    | Some max => bool_decide (max ≠ 0 ∧ max < Z.of_nat (length value))%Z
    | None => false
    end
  | PatternMismatch =>
    match FormValidator.pattern rules with
    | Some p => negb (test (FormValidator.patterns p) value)
    | None => false
    end
  | CustomFailure =>
    match FormValidator.custom rules with
    | Some predicate => negb (predicate value)
    | None => false
    end
  end.

(** The message a failed check reports. *)
Definition error_of (rules : FormValidator.ValidationRule) (chk : Check)
  : jsstring :=
  match chk with
  | RequiredEmpty => FormValidator.messages_required
  | MinLength =>
    FormValidator.messages_minLength (default 0%Z (FormValidator.minLength rules))
  | MaxLength =>
    FormValidator.messages_maxLength (default 0%Z (FormValidator.maxLength rules))
  | PatternMismatch =>
    match FormValidator.pattern rules with
    | Some p => FormValidator.messages p
    | None => []
    end
  | CustomFailure =>
    match FormValidator.customMessage rules with
    | Some ((_ :: _) as message) => message
    | _ => utf16 "Неверное значение"
    end
  end.

(** Short-circuit evaluation in the listed order: the error of the first
    check that fails, no error when none does. *)
Definition first_failing (value : jsstring) (rules : FormValidator.ValidationRule)
  : option jsstring :=
  error_of rules <$> List.find (fails value rules) checks_in_order.

(** A declared field was validated when the page shows the outcome, an
    error or its removal, on a control of that name. *)
Definition looked_at (form : FormValidator.Form) (out : FormValidator.Outcome)
    (fieldName : jsstring) : Prop :=
  ∃ i field, form !! i = Some field ∧ fst field = fieldName
    ∧ (FormValidator.clearFieldError i ∈ FormValidator.page out
       ∨ ∃ message, FormValidator.showFieldError i message ∈ FormValidator.page out).

(** The strings a pattern matches in full. *)
Inductive matches : regex → jsstring → Prop :=
  | matches_empty : matches Empty []
  | matches_unit accept c : accept c = true → matches (Unit accept) [c]
  | matches_seq r1 r2 s1 s2 :
      matches r1 s1 → matches r2 s2 → matches (Seq r1 r2) (s1 ++ s2)
  | matches_alt_l r1 r2 s : matches r1 s → matches (Alt r1 r2) s
  | matches_alt_r r1 r2 s : matches r2 s → matches (Alt r1 r2) s
  | matches_star_nil r : matches (Star r) []
  | matches_star_app r s1 s2 :
      matches r s1 → matches (Star r) s2 → matches (Star r) (s1 ++ s2)
  | matches_both r1 r2 s : matches r1 s → matches r2 s → matches (Both r1 r2) s.

(** The product's name or description contains [q], letter case aside,
    under the engine's [toLowerCase]. *)
Definition mentions (toLowerCase : jsstring → jsstring) (q : jsstring)
    (product : Product) : bool :=
  includes (toLowerCase (name product)) (toLowerCase q)
  || includes (toLowerCase (description product)) (toLowerCase q).

(** The result of a search in the words of the specification: the
    products that mention the trimmed query, all of them when nothing is
    left of the query after trimming. *)
Definition search_as_specified (toLowerCase : jsstring → jsstring)
    (query : jsstring) (catalog : list Product) : list Product :=
  if bool_decide (trim query = []) then catalog
  else filter (fun product => mentions toLowerCase (trim query) product)
              catalog.

(** What is known of the engine's [toLowerCase] without its tables. *)
Definition lowers_basic_text (toLowerCase : jsstring → jsstring) : Prop :=
  ∀ s, basic_text s = true → toLowerCase s = toLowerCase_basic s.

(** Catalogues of [basic_text]. *)
Definition basic_catalogue (catalog : list Product) : bool :=
  forallb (fun product => basic_text (name product)
                          && basic_text (description product)) catalog.

(** The first entry of [l] whose id is [z] sits at position [i]. *)
Definition first_with_id (z : Z) (l : list CartItem) (i : nat) (item : CartItem)
  : Prop :=
  l !! i = Some item ∧ id item = z
  ∧ ∀ (j : nat) (item' : CartItem),
      (j < i)%nat → l !! j = Some item' → id item' ≠ z.

(** White space at the ends of a string. *)
Definition head_not_space (t : jsstring) : Prop :=
  match t with
  | [] => True
  | c :: _ => is_js_space c = false
  end.

Definition all_space (s : jsstring) : Prop :=
  Forall (fun c => is_js_space c = true) s.

(** Every code unit, and some code unit, of [s] is of class [f]. *)
Definition all_units (f : N → bool) (s : jsstring) : Prop :=
  Forall (fun c => f c = true) s.
Definition some_unit (f : N → bool) (s : jsstring) : Prop :=
  Exists (fun c => f c = true) s.

(** Every declared field has a [plain_name]. *)
Definition plain_fields
    (entries : list (jsstring * FormValidator.ValidationRule)) : bool :=
  forallb (fun entry => FormValidator.plain_name (fst entry)) entries.

(** The page effect that validating [control] against [rules] leaves. *)
Definition effect_of (i : nat) (control : jsstring * jsstring)
    (rules : FormValidator.ValidationRule) : FormValidator.DomEffect :=
  match FormValidator.validateField (snd control) rules with
  | Some error => FormValidator.showFieldError i error
  | None => FormValidator.clearFieldError i
  end.


(** *** Auxiliary notions for the JSON round trip *)

Definition not_digit_head (rest : jsstring) : Prop :=
  match rest with
  | [] => True
  | c :: _ => is_digit c = false
  end.

(** What may follow a number in JSON text without being read as part of
    it. *)
Definition number_end (rest : jsstring) : Prop :=
  match rest with
  | [] => True
  | c :: _ => is_digit c = false ∧ c ≠ 46 ∧ c ≠ 101 ∧ c ≠ 69
  end.

(** The first code unit of a value's text: never white space, never a
    closing bracket. *)
Definition starts_value (t : jsstring) : Prop :=
  ∃ c t', t = c :: t' ∧ is_json_space c = false ∧ c ≠ 93 ∧ c ≠ 125.

(** The text of [v] parses back to [v] with fuel for its length. *)
Definition parses (v : JsVal) : Prop :=
  ∀ fuel rest, number_end rest → (length (JSON_stringify v) ≤ fuel)%nat →
    parse_value fuel (JSON_stringify v ++ rest) = Some (v, rest).

Definition member_text (kv : jsstring * JsVal) : jsstring :=
  quote (fst kv) ++ 58 :: JSON_stringify (snd kv).

(** Induction on JSON values that reaches into arrays and objects. *)
Section nested_induction.
Variable P : JsVal → Prop.
Hypothesis Hnull : P JNull.
Hypothesis Hbool : ∀ b, P (JBool b).
Hypothesis Hnum : ∀ m e, P (JNum m e).
Hypothesis Hstr : ∀ s, P (JStr s).
Hypothesis Harr : ∀ l, Forall P l → P (JArr l).
Hypothesis Hobj : ∀ l, Forall (fun kv => P (snd kv)) l → P (JObj l).

Fixpoint JsVal_nested_ind (v : JsVal) : P v :=
  match v with
  | JNull => Hnull
  | JBool b => Hbool b
  | JNum m e => Hnum m e
  | JStr s => Hstr s
  | JArr l =>
    Harr l ((fix all (l : list JsVal) : Forall P l :=
               match l with
               | [] => Forall_nil_2 P
               | x :: l' => Forall_cons_2 P x l' (JsVal_nested_ind x) (all l')
               end) l)
  | JObj l =>
    Hobj l ((fix all (l : list (jsstring * JsVal))
               : Forall (fun kv => P (snd kv)) l :=
               match l with
               | [] => Forall_nil_2 _
               | kv :: l' =>
                 Forall_cons_2 (fun kv => P (snd kv)) kv l'
                               (JsVal_nested_ind (snd kv)) (all l')
               end) l)
  end.
End nested_induction.

(** *** Sample data for the examples *)

Definition open_storage : LocalStorage :=
  {| slot := None; blocked := false; quota := None |}.


Definition airpods : Product :=
  {| id := 7; name := utf16 "AirPods Pro";
     description := utf16 "Беспроводные наушники с шумоподавлением";
     price := 24990; category := utf16 "accessories";
     image := utf16 "images/airposd.png" |}.

Definition giveaway : Product :=
  {| id := 9; name := utf16 "Sticker"; description := [];
     price := 0; category := utf16 "accessories"; image := [] |}.

Definition cart_with_airpods : Cart :=
  {| items := [ {| product := airpods; quantity := 1 |} ];
     localStorage := open_storage; console := [] |}.

Definition loaded_catalogue : ProductManager.State :=
  snd (loadProducts ProductManager.new).

Definition rule_required_email : FormValidator.ValidationRule :=
  {| FormValidator.required := true; FormValidator.minLength := None;
     FormValidator.maxLength := None;
     FormValidator.pattern := Some FormValidator.email;
     FormValidator.custom := None; FormValidator.customMessage := None |}.

Definition rule_required : FormValidator.ValidationRule :=
  {| FormValidator.required := true; FormValidator.minLength := None;
     FormValidator.maxLength := None; FormValidator.pattern := None;
     FormValidator.custom := None; FormValidator.customMessage := None |}.

Definition rule_optional_min2 : FormValidator.ValidationRule :=
  {| FormValidator.required := false; FormValidator.minLength := Some 2%Z;
     FormValidator.maxLength := None; FormValidator.pattern := None;
     FormValidator.custom := None; FormValidator.customMessage := None |}.

Definition form_with_name_only : FormValidator.Form :=
  [ (utf16 "name", utf16 "Bob") ].

Definition rules_name_and_email
  : list (jsstring * FormValidator.ValidationRule) :=
  [ (utf16 "name", rule_required); (utf16 "email", rule_required_email) ].

(** *** Notions for the further properties *)

(** An entry as the cart's methods leave it: a product that passes
    [validateProduct], in a quantity that is not [<= 0]. *)
Definition entry_ok (item : CartItem) : Prop :=
  validateProduct item = true ∧ (quantity item <=? 0)%Z = false.

(** A storage that takes every write. *)
Definition accepting (ls : LocalStorage) : Prop :=
  blocked ls = false ∧ quota ls = None.

(** The storage holds the cart: the text of its entries, or nothing yet
    for a cart without entries. *)
Definition mirrored (c : Cart) : Prop :=
  slot (localStorage c) = Some (JSON_stringify (js_of_items (items c)))
  ∨ (slot (localStorage c) = None ∧ items c = []).

(** The cart's storage takes writes and holds the cart, and nothing was
    logged beyond [log]. *)
Definition in_step (log : list jsstring) (c : Cart) : Prop :=
  accepting (localStorage c) ∧ mirrored c ∧ console c = log.

(** [q] occurs in [s] as a contiguous run. *)
Definition infix_of (q s : jsstring) : Prop :=
  ∃ pre post, s = pre ++ q ++ post.

(** At most one code unit, of class [f]. *)
Definition at_most_one (f : N → bool) (o : jsstring) : Prop :=
  o = [] ∨ ∃ c, o = [c] ∧ f c = true.

(** Exactly [n] decimal digits. *)
Definition digits (n : nat) (d : jsstring) : Prop :=
  length d = n ∧ all_units is_digit d.

(** The shape of an address the email pattern takes: a local part, [@],
    a domain, a dot and a last part, none empty, none with white space or
    a further [@]. *)
Definition email_shape (s : jsstring) : Prop :=
  ∃ a b c, s = a ++ 64 :: b ++ 46 :: c
    ∧ a ≠ [] ∧ b ≠ [] ∧ c ≠ []
    ∧ all_units FormValidator.email_unit a
    ∧ all_units FormValidator.email_unit b
    ∧ all_units FormValidator.email_unit c.

(** The shape of a number the phone pattern takes: [+7], then groups of
    three, three, two and two digits, with an optional blank and an
    optional opening bracket before the first group, an optional closing
    bracket and an optional blank after it, and an optional hyphen before
    each of the last two groups. *)
Definition phone_shape (s : jsstring) : Prop :=
  ∃ sp1 lp d1 rp sp2 d2 h1 d3 h2 d4,
    s = 43 :: 55 :: sp1 ++ lp ++ d1 ++ rp ++ sp2 ++ d2 ++ h1 ++ d3 ++ h2 ++ d4
    ∧ at_most_one is_js_space sp1 ∧ at_most_one (N.eqb 40) lp ∧ digits 3 d1
    ∧ at_most_one (N.eqb 41) rp ∧ at_most_one is_js_space sp2 ∧ digits 3 d2
    ∧ at_most_one (N.eqb 45) h1 ∧ digits 2 d3
    ∧ at_most_one (N.eqb 45) h2 ∧ digits 2 d4.

(** What the registration form asks of a name, and of a password. *)
Definition name_shape (t : jsstring) : Prop :=
  (2 ≤ length t ≤ 50)%nat ∧ all_units FormValidator.name_unit t.

Definition password_shape (t : jsstring) : Prop :=
  (8 ≤ length t)%nat ∧ all_units FormValidator.password_unit t
  ∧ some_unit is_lower t ∧ some_unit is_upper t ∧ some_unit is_digit t.

(** The control that [form] has for [fieldName], if any, holds a value
    whose trimmed text is [ok]. *)
Definition field_ok (form : FormValidator.Form) (fieldName : jsstring)
    (ok : jsstring → Prop) : Prop :=
  ∀ i control,
    FormValidator.querySelector form fieldName = Some (i, control) →
    ok (trim (snd control)).




(** *** Further sample data *)

Definition closed_storage : LocalStorage :=
  {| slot := None; blocked := true; quota := None |}.

Definition cart_offline : Cart :=
  {| items := [ {| product := airpods; quantity := 1 |} ];
     localStorage := closed_storage; console := [] |}.


(** Two products whose prices add up to an integer that is no double. *)
Definition bullion : Product :=
  {| id := 11; name := utf16 "Bullion"; description := [];
     price := 2 ^ 53; category := utf16 "accessories"; image := [] |}.

Definition penny_sweet : Product :=
  {| id := 12; name := utf16 "Penny sweet"; description := [];
     price := 1; category := utf16 "accessories"; image := [] |}.

Definition shopping_trip : list CartCall :=
  [ call_add airpods; call_add airpods; call_setQuantity 7 5;
    call_add giveaway; call_remove 3 ].

(** * Properties *)

(** ** The cart *)
Section cart.
Implicit Types (c : Cart) (l : list CartItem) (item : CartItem) (p : Product).

Lemma items_saveToStorage c : items (saveToStorage c) = items c.
Proof. unfold saveToStorage. by destruct (setItem _ _). Qed.

Lemma ids_insert_same l i item item' :
  l !! i = Some item → ProductManager.id item' = ProductManager.id item →
  ids (<[i := item']> l) = ids l.
Proof.
  intros Hi Hid. unfold ids.
  change (map ?f ?x) with (f <$> x).
  rewrite list_fmap_insert, Hid. apply list_insert_id.
  by rewrite list_lookup_fmap, Hi.
Qed.

Lemma ids_filter_sublist (P : CartItem → Prop) `{∀ x, Decision (P x)} l :
  sublist (ids (filter P l)) (ids l).
Proof.
  induction l as [|x l IH]; [constructor|].
  rewrite filter_cons. destruct (decide (P x)); simpl.
  - by constructor.
  - by constructor.
Qed.

Lemma find_none_fresh l (z : Z) :
  list_find (fun item : CartItem => ProductManager.id item = z) l = None → z ∉ ids l.
Proof.
  rewrite list_find_None, Forall_forall. intros Hno Hin.
  unfold ids in Hin. apply list_elem_of_fmap in Hin as (x & -> & Hx).
  by apply (Hno x).
Qed.

Lemma NoDup_ids_addProduct p c :
  NoDup (ids (items c)) → NoDup (ids (items (snd (addProduct p c)))).
Proof.
  intros Hnd. unfold addProduct.
  destruct (negb (validateProduct p)); [done|]. simpl.
  rewrite items_saveToStorage. simpl.
  destruct (list_find _ _) as [[i x]|] eqn:Hfind.
  - apply list_find_Some in Hfind as (Hi & _ & _).
    by rewrite (ids_insert_same _ _ x).
  - unfold ids. rewrite map_app. simpl. apply NoDup_app. split; [done|].
    split; [|apply NoDup_singleton].
    intros z Hz Hz'. apply list_elem_of_singleton in Hz' as ->.
    by apply find_none_fresh in Hfind.
Qed.

Lemma NoDup_ids_removeProduct z c :
  NoDup (ids (items c)) → NoDup (ids (items (snd (removeProduct z c)))).
Proof.
  intros Hnd. unfold removeProduct. simpl.
  assert (NoDup (ids (filter (fun item : CartItem => ProductManager.id item ≠ z) (items c)))).
  { eapply sublist_NoDup; [|apply ids_filter_sublist]. done. }
  case_bool_decide; simpl; [by rewrite items_saveToStorage|done].
Qed.

Lemma NoDup_ids_updateQuantity z q c :
  NoDup (ids (items c)) → NoDup (ids (items (snd (updateQuantity z q c)))).
Proof.
  intros Hnd. unfold updateQuantity.
  destruct (q <=? 0)%Z; [by apply NoDup_ids_removeProduct|].
  destruct (list_find _ _) as [[i x]|] eqn:Hfind; simpl; [|done].
  rewrite items_saveToStorage. simpl.
  apply list_find_Some in Hfind as (Hi & _ & _).
  by rewrite (ids_insert_same _ _ x).
Qed.

Lemma NoDup_ids_perform call c :
  NoDup (ids (items c)) → NoDup (ids (items (perform c call))).
Proof.
  destruct call; simpl;
    auto using NoDup_ids_addProduct, NoDup_ids_removeProduct,
               NoDup_ids_updateQuantity.
Qed.

Lemma NoDup_ids_perform_all calls c :
  NoDup (ids (items c)) → NoDup (ids (items (perform_all calls c))).
Proof.
  revert c. induction calls as [|call calls IH]; intros c Hnd; [done|].
  simpl. apply IH. by apply NoDup_ids_perform.
Qed.

Lemma round_double_exact (z : Z) :
  (Z.abs z ≤ 2 ^ 53)%Z → round_double z = finite z.
Proof.
  intros Hz. unfold round_double. by rewrite (proj2 (Z.leb_le _ _) Hz).
Qed.

Lemma total_magnitude_nonneg l : (0 ≤ total_magnitude l)%Z.
Proof. induction l as [|x l IH]; simpl; lia. Qed.

Lemma count_magnitude_nonneg l : (0 ≤ count_magnitude l)%Z.
Proof. induction l as [|x l IH]; simpl; lia. Qed.

Lemma fold_total_exact l (a : Z) :
  (Z.abs a + total_magnitude l ≤ 2 ^ 53)%Z →
  fold_left (fun total (item : CartItem) =>
               Number_add total (Number_multiply (price item) (quantity item)))
            l (finite a)
  = finite (a + sum_price_times_quantity l).
Proof.
  revert a. induction l as [|x l IH]; intros a Ha.
  - simpl. f_equal. lia.
  - cbn [fold_left total_magnitude sum_price_times_quantity] in *.
    pose proof (total_magnitude_nonneg l).
    cbn [Number_multiply]. rewrite round_double_exact by lia.
    cbn [Number_add]. rewrite round_double_exact by lia.
    rewrite IH by lia. f_equal. lia.
Qed.

Lemma fold_count_exact l (a : Z) :
  (Z.abs a + count_magnitude l ≤ 2 ^ 53)%Z →
  fold_left (fun count (item : CartItem) => Number_add count (quantity item))
            l (finite a)
  = finite (a + sum_quantity l).
Proof.
  revert a. induction l as [|x l IH]; intros a Ha.
  - simpl. f_equal. lia.
  - cbn [fold_left count_magnitude sum_quantity] in *.
    pose proof (count_magnitude_nonneg l).
    cbn [Number_add]. rewrite round_double_exact by lia.
    rewrite IH by lia. f_equal. lia.
Qed.

(** C1 as the code has it: from an empty cart, whatever calls of add,
    remove and setQuantity are made, no two entries share a product id.
    [calculateTotal] and [getItemCount] add up in double precision, in
    the order of the entries; as long as the magnitudes of the terms sum
    to at most [2 ^ 53], nothing is rounded and they are the sum of price
    times quantity and the sum of the quantities. *)
Theorem cart_invariants (ls : LocalStorage) (log : list jsstring)
    (calls : list CartCall) :
  let c := perform_all calls (empty_cart ls log) in
  NoDup (ids (items c))
  ∧ ((total_magnitude (items c) ≤ 2 ^ 53)%Z →
     calculateTotal c = finite (sum_price_times_quantity (items c)))
  ∧ ((count_magnitude (items c) ≤ 2 ^ 53)%Z →
     getItemCount c = finite (sum_quantity (items c))).
Proof.
  intros c. split; [|split].
  - apply NoDup_ids_perform_all. constructor.
  - intros Hsafe. unfold calculateTotal. by rewrite fold_total_exact by lia.
  - intros Hsafe. unfold getItemCount. by rewrite fold_count_exact by lia.
Qed.


Lemma list_find_first_with_id z l i item :
  first_with_id z l i item →
  list_find (fun x : CartItem => id x = z) l = Some (i, item).
Proof.
  intros (Hi & Hid & Hbefore). apply list_find_Some. split_and!; [done..|].
  intros j y Hj Hlt. by apply Hbefore with j.
Qed.

(** Where ids are distinct, an entry with the id is the first one. *)
Lemma first_with_id_NoDup z l i item :
  NoDup (ids l) → l !! i = Some item → id item = z → first_with_id z l i item.
Proof.
  intros Hnd Hi Hid. split_and!; [done..|].
  intros j item' Hlt Hj Hid'.
  assert (Hij : i = j); [|lia].
  apply (NoDup_lookup (ids l) i j z); [done|..];
    unfold ids; change (map ?f ?x) with (f <$> x);
    rewrite list_lookup_fmap; [by rewrite Hi; simpl; f_equal
                              |by rewrite Hj; simpl; f_equal].
Qed.

Lemma list_find_fresh z l :
  z ∉ ids l → list_find (fun x : CartItem => id x = z) l = None.
Proof.
  intros Hout. apply list_find_None, Forall_forall. intros x Hx Hid.
  apply Hout. unfold ids. apply list_elem_of_fmap. by exists x.
Qed.

Lemma with_items_same c : with_items (items c) c = c.
Proof. by destruct c. Qed.

Lemma filter_other_ids z l :
  z ∉ ids l → filter (fun x : CartItem => id x ≠ z) l = l.
Proof.
  induction l as [|x l IH]; intros Hout; [done|].
  unfold ids in Hout. simpl in Hout. apply not_elem_of_cons in Hout as [Hx Hl].
  rewrite filter_cons_True by congruence. f_equal. by apply IH.
Qed.


(** C3: [setQuantity] with a quantity of zero or less is [remove]; with
    a quantity above zero it overwrites the quantity of the entry with
    that id, leaving the others; for a product that is not in the cart
    it changes nothing and reports failure. *)
Theorem updateQuantity_contract (productId q : Z) c :
  ((q ≤ 0)%Z → updateQuantity productId q c = removeProduct productId c)
  ∧ ((0 < q)%Z → ∀ i item, first_with_id productId (items c) i item →
       fst (updateQuantity productId q c) = true
       ∧ items (snd (updateQuantity productId q c))
         = <[i := set_quantity q item]> (items c))
  ∧ (productId ∉ ids (items c) → updateQuantity productId q c = (false, c)).
Proof.
  split_and!.
  - intros Hq. unfold updateQuantity.
    by rewrite (proj2 (Z.leb_le q 0) Hq).
  - intros Hq i item Hfirst. unfold updateQuantity.
    rewrite (proj2 (Z.leb_gt q 0) Hq).
    rewrite (list_find_first_with_id _ _ _ _ Hfirst). simpl.
    by rewrite items_saveToStorage.
  - intros Hout. unfold updateQuantity, removeProduct.
    rewrite (list_find_fresh _ _ Hout). simpl.
    rewrite (filter_other_ids _ _ Hout), with_items_same.
    rewrite bool_decide_false by (intros Hne; by apply Hne).
    by destruct (q <=? 0)%Z.
Qed.

End cart.

(** ** Trimming *)
Section trimming.
Implicit Types (s t : jsstring).

Lemma trimStart_split s :
  ∃ pre, s = pre ++ trimStart s ∧ all_space pre ∧ head_not_space (trimStart s).
Proof.
  induction s as [|c s (pre & Heq & Hpre & Hhead)]; simpl.
  - exists []. repeat split. constructor.
  - destruct (is_js_space c) eqn:Hc.
    + exists (c :: pre). split_and!; [by rewrite Heq at 1|by constructor|done].
    + exists []. split_and!; [done|constructor|done].
Qed.

Lemma trimStart_fixed t : head_not_space t → trimStart t = t.
Proof. destruct t as [|c t]; simpl; [done|]. by intros ->. Qed.

Lemma trimStart_all_space s : all_space s → trimStart s = [].
Proof. induction 1 as [|c s Hc _ IH]; simpl; [done|]. by rewrite Hc. Qed.

Lemma trimEnd_split s :
  ∃ post, s = trimEnd s ++ post ∧ all_space post
          ∧ head_not_space (rev (trimEnd s)).
Proof.
  unfold trimEnd. destruct (trimStart_split (rev s)) as (pre & Heq & Hpre & Hhead).
  exists (rev pre). split_and!.
  - rewrite <- rev_app_distr, <- Heq. by rewrite rev_involutive.
  - by apply Forall_rev.
  - by rewrite rev_involutive.
Qed.

Lemma trimEnd_fixed t : head_not_space (rev t) → trimEnd t = t.
Proof.
  intros H. unfold trimEnd. rewrite trimStart_fixed by done.
  apply rev_involutive.
Qed.

Lemma trim_shape s :
  head_not_space (trim s) ∧ head_not_space (rev (trim s)).
Proof.
  unfold trim.
  destruct (trimStart_split s) as (pre & _ & _ & Hhead).
  destruct (trimEnd_split (trimStart s)) as (post & Heq & _ & Hlast).
  split; [|done].
  destruct (trimEnd (trimStart s)) as [|c t]; [done|].
  rewrite Heq in Hhead. exact Hhead.
Qed.

Lemma trim_idempotent s : trim (trim s) = trim s.
Proof.
  destruct (trim_shape s) as [Hhead Hlast].
  unfold trim at 1. rewrite trimStart_fixed by done. by apply trimEnd_fixed.
Qed.

Lemma trim_all_space s : all_space s → trim s = [].
Proof. intros H. unfold trim. by rewrite trimStart_all_space. Qed.

Lemma trim_fixed t : head_not_space t → head_not_space (rev t) → trim t = t.
Proof.
  intros Hhead Hlast. unfold trim. rewrite trimStart_fixed by done.
  by apply trimEnd_fixed.
Qed.

End trimming.

(** ** Field validation *)
Section validator.
Import FormValidator.
Implicit Types (field value : jsstring) (rules : ValidationRule).

Lemma validateField_empty_required field rules :
  trim field = [] → required rules = true →
  validateField field rules = Some messages_required.
Proof. intros Hv Hr. unfold validateField. by rewrite Hv, Hr. Qed.

Lemma validateField_empty_optional field rules :
  trim field = [] → required rules = false → validateField field rules = None.
Proof. intros Hv Hr. unfold validateField. by rewrite Hv, Hr. Qed.

(** C10: [validateField] trims the field value before every check.  A
    value that trims to nothing is valid under rules that do not require
    the field, whatever their length limits, pattern and predicate, and a
    value of white space only gets the required-field error under rules
    that require it. *)
Theorem validateField_trims field rules :
  validateField field rules = validateField (trim field) rules
  ∧ (required rules = false → trim field = [] →
       validateField field rules = None)
  ∧ (required rules = true → all_space field →
       validateField field rules = Some messages_required).
Proof.
  split_and!.
  - unfold validateField. by rewrite trim_idempotent.
  - intros Hr Hv. by apply validateField_empty_optional.
  - intros Hr Hs. apply validateField_empty_required; [|done].
    by apply trim_all_space.
Qed.

Lemma utf16_prefix_nonempty (a b c : jsstring) :
  a ≠ [] → a ++ b ++ c ≠ [].
Proof. by destruct a. Qed.

Lemma validateField_message_nonempty field rules :
  validateField field rules ≠ Some [].
Proof.
  unfold validateField.
  destruct (required rules && negb (truthy_str (trim field))); [done|].
  destruct (negb (truthy_str (trim field))); [done|].
  unfold check_minLength, check_maxLength, check_pattern, check_custom.
  destruct (minLength rules) as [min|];
    [destruct (truthy_num min && _); [intros [=H]; revert H;
       by apply utf16_prefix_nonempty|]|];
    (destruct (maxLength rules) as [max|];
      [destruct (truthy_num max && _); [intros [=H]; revert H;
         by apply utf16_prefix_nonempty|]|];
      (destruct (pattern rules) as [p|];
        [destruct (negb (test _ _)); [by destruct p|]|];
        (destruct (custom rules) as [f|]; [|done];
         destruct (negb (f _)); [|done];
         destruct (customMessage rules) as [[|? ?]|]; done))).
Qed.

Lemma check_minLength_fails rules value :
  check_minLength rules value
  = if fails value rules MinLength then Some (error_of rules MinLength) else None.
Proof.
  unfold check_minLength, fails, error_of, truthy_num.
  destruct (minLength rules) as [min|]; simpl; [|done].
  destruct (Z.eqb_spec min 0), (Z.ltb_spec (Z.of_nat (length value)) min);
    case_bool_decide; simpl; try done; lia.
Qed.

Lemma check_maxLength_fails rules value :
  check_maxLength rules value
  = if fails value rules MaxLength then Some (error_of rules MaxLength) else None.
Proof.
  unfold check_maxLength, fails, error_of, truthy_num.
  destruct (maxLength rules) as [max|]; simpl; [|done].
  destruct (Z.eqb_spec max 0), (Z.ltb_spec max (Z.of_nat (length value)));
    case_bool_decide; simpl; try done; lia.
Qed.

Lemma check_pattern_fails rules value :
  check_pattern rules value
  = if fails value rules PatternMismatch
    then Some (error_of rules PatternMismatch) else None.
Proof.
  unfold check_pattern, fails, error_of. by destruct (pattern rules).
Qed.

Lemma check_custom_fails rules value :
  check_custom rules value
  = if fails value rules CustomFailure
    then Some (error_of rules CustomFailure) else None.
Proof.
  unfold check_custom, fails, error_of.
  destruct (custom rules) as [f|]; [|done].
  destruct (negb (f value)); [|done].
  by destruct (customMessage rules) as [[|? ?]|].
Qed.

Lemma first_failing_chain value rules :
  first_failing value rules
  = if fails value rules RequiredEmpty then Some (error_of rules RequiredEmpty)
    else if fails value rules MinLength then Some (error_of rules MinLength)
    else if fails value rules MaxLength then Some (error_of rules MaxLength)
    else if fails value rules PatternMismatch
         then Some (error_of rules PatternMismatch)
    else if fails value rules CustomFailure
         then Some (error_of rules CustomFailure)
    else None.
Proof.
  unfold first_failing, checks_in_order. cbn [List.find].
  repeat (destruct (fails value rules _); [reflexivity|]). reflexivity.
Qed.

Lemma fails_required value rules :
  fails value rules RequiredEmpty = required rules && negb (truthy_str value).
Proof.
  unfold fails. f_equal. destruct value; [by rewrite bool_decide_true|].
  by rewrite bool_decide_false.
Qed.

Lemma validateField_chain field rules :
  validateField field rules
  = (if bool_decide (trim field = []) && negb (required rules) then None
     else first_failing (trim field) rules).
Proof.
  unfold validateField.
  rewrite first_failing_chain, fails_required.
  rewrite check_minLength_fails, check_maxLength_fails,
    check_pattern_fails, check_custom_fails.
  destruct (trim field) as [|c value] eqn:Hv.
  - rewrite bool_decide_true by done. cbn [truthy_str negb andb].
    rewrite andb_true_r. destruct (required rules); cbn [negb error_of]; reflexivity.
  - rewrite (bool_decide_false (c :: value = [])) by done.
    cbn [andb negb truthy_str]. rewrite andb_false_r.
    destruct (fails (c :: value) rules MinLength); [done|].
    destruct (fails (c :: value) rules MaxLength); [done|].
    by destruct (fails (c :: value) rules PatternMismatch).
Qed.

(** C6 as the code has it: on the trimmed value, the required check
    comes first, an empty value then passes without further checks, and
    otherwise the error of the first failing check among minimum length,
    maximum length, pattern and predicate is returned, or none.  With
    the rule "required, pattern email" that is the email-format error for
    "not-an-email", no error for "a@b.com" and the required-field error
    for the empty value. *)
Theorem validateField_order field rules :
  validateField field rules
  = (if bool_decide (trim field = []) && negb (required rules) then None
     else first_failing (trim field) rules)
  ∧ (let rule :=
       {| required := true; minLength := None; maxLength := None;
          pattern := Some email; custom := None; customMessage := None |} in
     validateField (utf16 "not-an-email") rule = Some (messages email)
     ∧ validateField (utf16 "a@b.com") rule = None
     ∧ validateField [] rule = Some messages_required).
Proof.
  split; [apply validateField_chain|]. by vm_compute.
Qed.

Implicit Types (form : Form) (acc : Outcome)
  (entries : list (jsstring * ValidationRule)).

Lemma validateForm_step_found form acc fieldName rules i control :
  querySelector form fieldName = Some (i, control) →
  validateForm_step form acc (fieldName, rules)
  = match validateField (snd control) rules with
    | Some error =>
      {| isValid := false; errors := <[ fieldName := error ]> (errors acc);
         page := page acc ++ [showFieldError i error] |}
    | None =>
      {| isValid := isValid acc; errors := errors acc;
         page := page acc ++ [clearFieldError i] |}
    end.
Proof.
  intros Hq. unfold validateForm_step. rewrite Hq.
  destruct (validateField (snd control) rules) as [[|c e]|] eqn:Hv; [|done..].
  by apply validateField_message_nonempty in Hv.
Qed.

Lemma validateForm_step_absent form acc fieldName rules :
  querySelector form fieldName = None →
  validateForm_step form acc (fieldName, rules) = acc.
Proof. intros Hq. unfold validateForm_step. by rewrite Hq. Qed.

Lemma validateForm_step_page form acc entry effect :
  effect ∈ page acc → effect ∈ page (validateForm_step form acc entry).
Proof.
  intros Hin. destruct entry as [fieldName rules].
  destruct (querySelector form fieldName) as [[i control]|] eqn:Hq.
  - rewrite (validateForm_step_found _ _ _ _ _ _ Hq).
    destruct (validateField _ _); simpl; apply elem_of_app; by left.
  - by rewrite validateForm_step_absent.
Qed.

Lemma validateForm_fold_page form entries acc effect :
  effect ∈ page acc →
  effect ∈ page (fold_left (validateForm_step form) entries acc).
Proof.
  revert acc. induction entries as [|entry entries IH]; intros acc Hin; [done|].
  cbn [fold_left]. by apply IH, validateForm_step_page.
Qed.

Lemma validateForm_fold_effects form entries acc fieldName rules i control :
  (fieldName, rules) ∈ entries →
  querySelector form fieldName = Some (i, control) →
  effect_of i control rules
  ∈ page (fold_left (validateForm_step form) entries acc).
Proof.
  revert acc. induction entries as [|entry entries IH]; intros acc Hin Hq.
  - by apply elem_of_nil in Hin.
  - apply elem_of_cons in Hin as [Heq|Hin]; [subst entry|by apply IH].
    cbn [fold_left]. apply validateForm_fold_page.
    rewrite (validateForm_step_found _ _ _ _ _ _ Hq). unfold effect_of.
    destruct (validateField _ _); simpl; apply elem_of_app; right;
      apply list_elem_of_singleton; done.
Qed.

Lemma validateForm_fold_valid form entries acc :
  isValid (fold_left (validateForm_step form) entries acc) = true
  ↔ isValid acc = true
    ∧ ∀ fieldName rules i control,
        (fieldName, rules) ∈ entries →
        querySelector form fieldName = Some (i, control) →
        validateField (snd control) rules = None.
Proof.
  revert acc. induction entries as [|[fieldName rules] entries IH]; intros acc.
  - simpl. split; [|tauto]. intros H. split; [done|].
    intros ???? Hin. by apply elem_of_nil in Hin.
  - cbn [fold_left]. rewrite IH. clear IH.
    destruct (querySelector form fieldName) as [[i control]|] eqn:Hq.
    + rewrite (validateForm_step_found _ _ _ _ _ _ Hq).
      destruct (validateField (snd control) rules) as [error|] eqn:Hv; simpl.
      * split; [by intros [? _]|]. intros [_ Hall].
        specialize (Hall fieldName rules i control (proj2 (elem_of_cons _ _ _) (or_introl eq_refl)) Hq).
        congruence.
      * split; intros [Hacc Hall]; (split; [done|]);
          intros n r j f Hin Hq'.
        -- apply elem_of_cons in Hin as [[= -> ->]|Hin]; [congruence|eauto].
        -- apply (Hall n r j f); [apply elem_of_cons; by right|done].
    + rewrite validateForm_step_absent by done.
      split; intros [Hacc Hall]; (split; [done|]); intros n r j f Hin Hq'.
      * apply elem_of_cons in Hin as [[= -> ->]|Hin]; [congruence|eauto].
      * apply (Hall n r j f); [apply elem_of_cons; by right|done].
Qed.

Lemma validateForm_fold_absent form entries acc :
  (∀ fieldName rules, (fieldName, rules) ∈ entries →
     querySelector form fieldName = None) →
  fold_left (validateForm_step form) entries acc = acc.
Proof.
  induction entries as [|[fieldName rules] entries IH]; intros Habs; [done|].
  cbn [fold_left]. rewrite validateForm_step_absent.
  - apply IH. intros n r Hin. apply (Habs n r). apply elem_of_cons. by right.
  - apply (Habs fieldName rules). apply elem_of_cons. by left.
Qed.

(** C9 as the code has it, for fields of plain names: [validateForm]
    validates every declared field for which the form has a control,
    against the first control of that name, and shows or clears its
    error; a declared field without a control is skipped.  It reports
    success exactly when none of the validated fields produced an
    error. *)
Theorem validateForm_contract form entries :
  plain_fields entries = true →
  let out := validateForm form entries in
  (∀ fieldName rules i control,
     (fieldName, rules) ∈ entries →
     querySelector form fieldName = Some (i, control) →
     effect_of i control rules ∈ page out)
  ∧ (isValid out = true
     ↔ ∀ fieldName rules i control,
         (fieldName, rules) ∈ entries →
         querySelector form fieldName = Some (i, control) →
         validateField (snd control) rules = None)
  ∧ ((∀ fieldName rules, (fieldName, rules) ∈ entries →
        querySelector form fieldName = None) →
     isValid out = true ∧ page out = []).
Proof.
  intros _ out. unfold out, validateForm. split_and!.
  - intros. by apply validateForm_fold_effects with fieldName.
  - rewrite validateForm_fold_valid. simpl. tauto.
  - intros Habs. by rewrite validateForm_fold_absent.
Qed.

End validator.

(** ** Regular expressions: the derivative matcher decides [matches] *)
Section regex_facts.
Implicit Types (r : regex) (s : jsstring) (c : N).

Lemma nullable_matches r : nullable r = true ↔ matches r [].
Proof.
  induction r as [| |f|r1 IH1 r2 IH2|r1 IH1 r2 IH2|r IH|r1 IH1 r2 IH2]; simpl.
  - split; [done|]. inversion 1.
  - split; [constructor|done].
  - split; [done|]. inversion 1.
  - rewrite andb_true_iff, IH1, IH2. split.
    + intros [H1 H2]. by apply (matches_seq _ _ [] []).
    + inversion 1 as [| |? ? s1 s2 H1 H2 Heq Hnil| | | | |]; subst.
      apply app_eq_nil in Hnil as [-> ->]. done.
  - rewrite orb_true_iff, IH1, IH2. split.
    + intros [H|H]; [by apply matches_alt_l|by apply matches_alt_r].
    + inversion 1; subst; tauto.
  - split; [constructor|done].
  - rewrite andb_true_iff, IH1, IH2. split.
    + intros [H1 H2]. by constructor.
    + inversion 1; subst; tauto.
Qed.

Lemma matches_star_cons r c s :
  matches (Star r) (c :: s) →
  ∃ s1 s2, s = s1 ++ s2 ∧ matches r (c :: s1) ∧ matches (Star r) s2.
Proof.
  intros H. remember (Star r) as r' eqn:Hr. remember (c :: s) as s' eqn:Hs.
  revert s Hs.
  induction H as [| | | | | |r0 s1 s2 H1 _ H2 IH|]; try discriminate.
  injection Hr as ->. intros s Hs.
  destruct s1 as [|c1 s1].
  - simpl in Hs. by apply IH.
  - simpl in Hs. injection Hs as -> <-. by exists s1, s2.
Qed.

Lemma derive_matches r c s : matches (derive c r) s ↔ matches r (c :: s).
Proof.
  revert s.
  induction r as [| |f|r1 IH1 r2 IH2|r1 IH1 r2 IH2|r IH|r1 IH1 r2 IH2];
    intros s; simpl.
  - split; inversion 1.
  - split; inversion 1.
  - destruct (f c) eqn:Hf; split; inversion 1; subst.
    + by constructor.
    + constructor.
    + congruence.
  - assert (Hseq : matches (Seq (derive c r1) r2) s
                   → matches (Seq r1 r2) (c :: s)).
    { inversion 1 as [| |? ? s1 s2 H1 H2| | | | |]; subst.
      apply IH1 in H1. by apply (matches_seq _ _ (c :: s1) s2). }
    assert (Hback : matches (Seq r1 r2) (c :: s) →
              matches (Seq (derive c r1) r2) s
              ∨ (matches r1 [] ∧ matches (derive c r2) s)).
    { inversion 1 as [| |? ? s1 s2 H1 H2 Heq Hs| | | | |]; subst.
      destruct s1 as [|c1 s1]; simpl in Hs.
      - right. split; [done|]. apply IH2. by rewrite <- Hs.
      - injection Hs as -> <-. left. constructor; [by apply IH1|done]. }
    destruct (nullable r1) eqn:Hn.
    + split.
      * inversion 1; subst; [by apply Hseq|].
        apply (matches_seq _ _ [] (c :: s)); [by apply nullable_matches|].
        by apply IH2.
      * intros H. apply Hback in H as [H|[_ H]];
          [by apply matches_alt_l|by apply matches_alt_r].
    + split; [done|].
      intros H. apply Hback in H as [H|[H _]]; [done|].
      apply nullable_matches in H. congruence.
  - split.
    + inversion 1; subst;
        [apply matches_alt_l; by apply IH1|apply matches_alt_r; by apply IH2].
    + inversion 1; subst;
        [apply matches_alt_l; by apply IH1|apply matches_alt_r; by apply IH2].
  - split.
    + inversion 1 as [| |? ? s1 s2 H1 H2| | | | |]; subst.
      apply IH in H1. by apply (matches_star_app _ (c :: s1) s2).
    + intros H. apply matches_star_cons in H as (s1 & s2 & -> & H1 & H2).
      constructor; [by apply IH|done].
  - split; inversion 1; subst; constructor; by (apply IH1 || apply IH2).
Qed.

Lemma test_matches r s : test r s = true ↔ matches r s.
Proof.
  unfold test. revert r. induction s as [|c s IH]; intros r; simpl.
  - apply nullable_matches.
  - rewrite IH. apply derive_matches.
Qed.

End regex_facts.

(** ** The password pattern *)
Section password_pattern.
Import FormValidator.
Implicit Types (r : regex) (s : jsstring) (c : N) (f g : N → bool).

Lemma matches_star_unit f s : matches (Star (Unit f)) s ↔ all_units f s.
Proof.
  split.
  - intros H. remember (Star (Unit f)) as r eqn:Hr.
    induction H as [| | | | | |r0 s1 s2 H1 _ H2 IH|]; try discriminate.
    + constructor.
    + injection Hr as ->. inversion H1; subst. constructor; [done|by apply IH].
  - induction 1 as [|c s Hc _ IH]; [constructor|].
    apply (matches_star_app _ [c] s); [by constructor|done].
Qed.

Lemma matches_times_unit n f s :
  matches (Times n (Unit f)) s ↔ length s = n ∧ all_units f s.
Proof.
  revert s. induction n as [|n IH]; intros s; simpl.
  - split.
    + inversion 1. split; [done|constructor].
    + intros [Hlen _]. destruct s; [constructor|done].
  - split.
    + inversion 1 as [| |? ? s1 s2 H1 H2| | | | |]; subst.
      inversion H1; subst. apply IH in H2 as [<- Hall]. simpl.
      split; [done|by constructor].
    + intros [Hlen Hall]. destruct Hall as [|c s Hc Hall]; [done|].
      apply (matches_seq _ _ [c] s); [by constructor|].
      apply IH. split; [by injection Hlen|done].
Qed.

Lemma matches_atleast_unit n f s :
  matches (AtLeast n (Unit f)) s ↔ (n ≤ length s)%nat ∧ all_units f s.
Proof.
  unfold AtLeast. split.
  - inversion 1 as [| |? ? s1 s2 H1 H2| | | | |]; subst.
    apply matches_times_unit in H1 as [<- Hall1].
    apply matches_star_unit in H2.
    split; [rewrite length_app; lia|by apply Forall_app].
  - intros [Hlen Hall]. rewrite <- (take_drop n s).
    unfold all_units in Hall. rewrite <- (take_drop n s) in Hall.
    apply Forall_app in Hall as [Hall1 Hall2].
    constructor.
    + apply matches_times_unit. split; [|done]. rewrite length_take. lia.
    + by apply matches_star_unit.
Qed.

Lemma matches_ahead r k s :
  matches (Ahead r k) s
  ↔ (∃ s1 s2, s = s1 ++ s2 ∧ matches r s1) ∧ matches k s.
Proof.
  unfold Ahead. split.
  - inversion 1 as [| | | | | | |? ? ? Hr Hk]; subst. split; [|done].
    inversion Hr as [| |? ? s1 s2 H1 H2| | | | |]; subst. by exists s1, s2.
  - intros [(s1 & s2 & -> & H1) Hk]. constructor; [|done].
    constructor; [done|]. apply matches_star_unit.
    unfold all_units. by apply Forall_forall.
Qed.

Lemma matches_dots_then g s :
  matches (Seq (Star (Unit dot)) (Unit g)) s
  ↔ ∃ pre c, s = pre ++ [c] ∧ all_units dot pre ∧ g c = true.
Proof.
  split.
  - inversion 1 as [| |? ? s1 s2 H1 H2| | | | |]; subst.
    inversion H2; subst. apply matches_star_unit in H1. by exists s1, c.
  - intros (pre & c & -> & Hpre & Hc).
    constructor; [by apply matches_star_unit|by constructor].
Qed.

Lemma password_unit_dot c : password_unit c = true → dot c = true.
Proof.
  unfold password_unit, dot, is_line_terminator, is_lower, is_upper, is_digit.
  intros H.
  destruct (N.eqb_spec c 10) as [->|]; [done|].
  destruct (N.eqb_spec c 13) as [->|]; [done|].
  destruct (N.eqb_spec c 8232) as [->|]; [done|].
  destruct (N.eqb_spec c 8233) as [->|]; done.
Qed.

(** Under an all-alphanumeric string the lookahead [(?=.*g)] asks for a
    code unit of class [g] somewhere. *)
Lemma lookahead_some_unit g s :
  all_units password_unit s →
  (∃ s1 s2, s = s1 ++ s2 ∧ matches (Seq (Star (Unit dot)) (Unit g)) s1)
  ↔ some_unit g s.
Proof.
  intros Hall. split.
  - intros (s1 & s2 & -> & H). apply matches_dots_then in H as (pre & c & -> & _ & Hc).
    apply Exists_app. left. apply Exists_app. right. by constructor.
  - intros H. apply Exists_exists in H as (c & Hin & Hc).
    apply list_elem_of_split in Hin as (pre & post & ->).
    exists (pre ++ [c]), post. split; [by rewrite <- app_assoc|].
    apply matches_dots_then. exists pre, c. split_and!; [done| |done].
    apply Forall_app in Hall as [Hpre _].
    eapply Forall_impl; [exact Hpre|]. intros x. apply password_unit_dot.
Qed.

(** C7 as the code has it: the password pattern accepts exactly the
    strings of at least 8 code units that consist of the letters a-z and
    A-Z and the digits 0-9 only and hold at least one lowercase letter,
    one uppercase letter and one digit. *)
Theorem password_pattern_accepts s :
  test (patterns password) s = true
  ↔ (8 ≤ length s)%nat
    ∧ all_units password_unit s
    ∧ some_unit is_lower s ∧ some_unit is_upper s ∧ some_unit is_digit s.
Proof.
  rewrite test_matches. unfold patterns.
  rewrite !matches_ahead, matches_atleast_unit. split.
  - intros (Hlow & Hup & Hdig & Hlen & Hall).
    apply lookahead_some_unit in Hlow, Hup, Hdig; done.
  - intros (Hlen & Hall & Hlow & Hup & Hdig).
    apply lookahead_some_unit in Hlow, Hup, Hdig; done.
Qed.

End password_pattern.

(** ** Search *)
Section search.
Implicit Types (s q query : jsstring) (pm : ProductManager.State).

Lemma startsWith_prefix s q : startsWith s q = true ↔ ∃ post, s = q ++ post.
Proof.
  revert s. induction q as [|a q IH]; intros s; simpl.
  - split; [by exists s|done].
  - destruct s as [|b s]; simpl.
    + split; [done|]. by intros [post ?].
    + rewrite andb_true_iff, IH, N.eqb_eq. split.
      * intros [-> [post ->]]. by exists post.
      * intros [post [= -> ->]]. split; [done|by exists post].
Qed.

(** [includes] is containment as a contiguous run. *)
Lemma includes_infix s q :
  includes s q = true ↔ ∃ pre post, s = pre ++ q ++ post.
Proof.
  induction s as [|b s IH]; simpl.
  - rewrite orb_false_r, startsWith_prefix. split.
    + intros [post ->]. by exists [], post.
    + intros (pre & post & Heq). symmetry in Heq.
      apply app_eq_nil in Heq as [-> Heq]. by exists post.
  - rewrite orb_true_iff, startsWith_prefix, IH. split.
    + intros [[post ->]|(pre & post & ->)].
      * by exists [], post.
      * by exists (b :: pre), post.
    + intros ([|b' pre] & post & Heq).
      * left. by exists post.
      * right. injection Heq as -> ->. by exists pre, post.
Qed.

Lemma truthy_str_trim query :
  negb (truthy_str (trim query)) = bool_decide (trim query = []).
Proof.
  destruct (trim query); reflexivity.
Qed.

Lemma search_result toLowerCase query pm :
  fst (searchProducts toLowerCase query pm)
  = if bool_decide (trim query = []) then products pm
    else filter (fun product => mentions toLowerCase query product)
                (products pm).
Proof.
  unfold searchProducts. rewrite truthy_str_trim.
  by destruct (bool_decide (trim query = [])).
Qed.

Lemma mentions_basic toLowerCase q p :
  lowers_basic_text toLowerCase → basic_text q = true →
  basic_text (name p) && basic_text (description p) = true →
  mentions toLowerCase q p = mentions toLowerCase_basic q p.
Proof.
  intros Hlow Hq Hp. apply andb_true_iff in Hp as [Hn Hd].
  unfold mentions. by rewrite !Hlow.
Qed.

Lemma filter_mentions_basic toLowerCase q (l : list Product) :
  lowers_basic_text toLowerCase → basic_text q = true →
  basic_catalogue l = true →
  filter (fun product => mentions toLowerCase q product) l
  = filter (fun product => mentions toLowerCase_basic q product) l.
Proof.
  intros Hlow Hq. induction l as [|p l IH]; intros Hl; [done|].
  cbn [basic_catalogue forallb] in Hl. apply andb_true_iff in Hl as [Hp Hl].
  rewrite !filter_cons, (mentions_basic toLowerCase q p) by done.
  by rewrite (IH Hl).
Qed.

(** C8, where the code departs from it: the query is trimmed for the
    test for a blank query only, and matched as it was passed.  So
    " iphone" finds nothing, although the trimmed query occurs in the
    name of the first product. *)
Theorem search_keeps_surrounding_space toLowerCase :
  lowers_basic_text toLowerCase →
  fst (searchProducts toLowerCase (utf16 " iphone") loaded_catalogue) = []
  ∧ map id (search_as_specified toLowerCase (utf16 " iphone")
              (products loaded_catalogue))
    = [1%Z].
Proof.
  intros Hlow.
  assert (Htrim : trim (utf16 " iphone") = utf16 "iphone") by by vm_compute.
  assert (Hcat : basic_catalogue (products loaded_catalogue) = true)
    by by vm_compute.
  split.
  - rewrite search_result, Htrim.
    rewrite bool_decide_false by (by vm_compute).
    rewrite (filter_mentions_basic toLowerCase) by (done || by vm_compute).
    by vm_compute.
  - unfold search_as_specified. rewrite Htrim.
    rewrite bool_decide_false by (by vm_compute).
    rewrite (filter_mentions_basic toLowerCase) by (done || by vm_compute).
    by vm_compute.
Qed.

End search.

(** ** JSON: parsing what was written gives the value back *)
Section json_round_trip.
Implicit Types (s t rest : jsstring) (c : N) (v : JsVal) (fuel : nat)
  (d : Decimal.uint) (z m e : Z).

Lemma hex_value_digit n : n < 16 → hex_value (hex_digit n) = Some n.
Proof.
  intros Hn. unfold hex_value, hex_digit.
  destruct (N.ltb_spec n 10) as [Hlt|Hge].
  - rewrite (proj2 (N.leb_le 48 (48 + n))) by lia.
    rewrite (proj2 (N.leb_le (48 + n) 57)) by lia. simpl. f_equal. lia.
  - rewrite (proj2 (N.leb_gt (87 + n) 57)) by lia. rewrite andb_false_r.
    rewrite (proj2 (N.leb_le 97 (87 + n))) by lia.
    rewrite (proj2 (N.leb_le (87 + n) 102)) by lia. simpl. f_equal. lia.
Qed.

Lemma hex4_escape c :
  c < 65536 →
  hex4 (hex_digit (c / 4096 mod 16)) (hex_digit (c / 256 mod 16))
       (hex_digit (c / 16 mod 16)) (hex_digit (c mod 16)) = Some c.
Proof.
  intros Hc. unfold hex4.
  rewrite !hex_value_digit by (apply N.mod_lt; lia). f_equal.
  pose proof (N.div_mod c 16). pose proof (N.div_mod (c / 16) 16).
  pose proof (N.div_mod (c / 256) 16).
  pose proof (N.Div0.div_div c 16 16). pose proof (N.Div0.div_div c 256 16).
  change (16 * 16) with 256 in *. change (256 * 16) with 4096 in *.
  assert (c / 4096 < 16) by (apply N.Div0.div_lt_upper_bound; lia).
  rewrite (N.mod_small (c / 4096) 16) by done.
  lia.
Qed.

Lemma parse_unicode_escape c t :
  c < 65536 →
  parse_string_units (unicode_escape c ++ t) = push_unit c (parse_string_units t).
Proof.
  intros Hc. unfold unicode_escape. cbn [app parse_string_units].
  change (92 =? 34) with false. change (92 =? 92) with true.
  change (117 =? 117) with true. cbn iota.
  by rewrite hex4_escape.
Qed.
Lemma parse_literal_unit c t :
  c ≠ 34 → c ≠ 92 → 32 ≤ c →
  parse_string_units (c :: t) = push_unit c (parse_string_units t).
Proof.
  intros H34 H92 H32. cbn [parse_string_units].
  rewrite (proj2 (N.eqb_neq c 34)), (proj2 (N.eqb_neq c 92)) by done.
  by rewrite (proj2 (N.ltb_ge c 32)).
Qed.

Lemma parse_quote_unit c t :
  parse_string_units (quote_unit c ++ t) = push_unit c (parse_string_units t).
Proof.
  unfold quote_unit.
  destruct (N.eqb_spec c 8) as [->|?]; [done|].
  destruct (N.eqb_spec c 9) as [->|?]; [done|].
  destruct (N.eqb_spec c 10) as [->|?]; [done|].
  destruct (N.eqb_spec c 12) as [->|?]; [done|].
  destruct (N.eqb_spec c 13) as [->|?]; [done|].
  destruct (N.eqb_spec c 34) as [->|?]; [done|].
  destruct (N.eqb_spec c 92) as [->|?]; [done|].
  destruct (N.ltb_spec c 32).
  - apply parse_unicode_escape. lia.
  - by apply parse_literal_unit.
Qed.

Lemma surrogate_literal c :
  is_high_surrogate c = true ∨ is_low_surrogate c = true →
  c ≠ 34 ∧ c ≠ 92 ∧ 32 ≤ c ∧ c < 65536.
Proof.
  unfold is_high_surrogate, is_low_surrogate.
  rewrite !andb_true_iff, !N.leb_le. lia.
Qed.

Lemma parse_quote_units s rest :
  parse_string_units (quote_units s ++ 34 :: rest) = Some (s, rest).
Proof.
  remember (length s) as n eqn:Hn. revert s Hn.
  induction n as [n IH] using lt_wf_ind. intros s ->.
  destruct s as [|c r]; [done|]. cbn [quote_units].
  assert (IHr : parse_string_units (quote_units r ++ 34 :: rest) = Some (r, rest)).
  { apply (IH (length r)); [simpl; lia|done]. }
  destruct (is_high_surrogate c) eqn:Hhigh.
  - destruct (surrogate_literal c (or_introl Hhigh)) as (? & ? & ? & ?).
    destruct r as [|d r'].
    + rewrite parse_unicode_escape by done. done.
    + destruct (is_low_surrogate d) eqn:Hlow.
      * destruct (surrogate_literal d (or_intror Hlow)) as (? & ? & ? & ?).
        cbn [app]. rewrite !parse_literal_unit by done.
        rewrite (IH (length r')); [done|simpl; lia|done].
      * rewrite <- app_assoc, parse_unicode_escape by done. by rewrite IHr.
  - destruct (is_low_surrogate c) eqn:Hlow.
    + destruct (surrogate_literal c (or_intror Hlow)) as (? & ? & ? & ?).
      rewrite <- app_assoc, parse_unicode_escape by done. by rewrite IHr.
    + rewrite <- app_assoc, parse_quote_unit. by rewrite IHr.
Qed.

Lemma parse_quote s rest :
  ∃ t, quote s ++ rest = 34 :: t ∧ parse_string_units t = Some (s, rest).
Proof.
  exists (quote_units s ++ 34 :: rest). split.
  - unfold quote. cbn [app]. by rewrite <- app_assoc.
  - apply parse_quote_units.
Qed.
Lemma number_end_not_digit rest : number_end rest → not_digit_head rest.
Proof. destruct rest; [done|]. by intros [? _]. Qed.

Lemma read_digits_units d rest :
  not_digit_head rest → read_digits (uint_units d ++ rest) = (d, rest).
Proof.
  intros Hrest. induction d; simpl.
  - destruct rest as [|c rest]; [done|]. simpl in *. by rewrite Hrest.
  - by rewrite IHd.
  - by rewrite IHd.
  - by rewrite IHd.
  - by rewrite IHd.
  - by rewrite IHd.
  - by rewrite IHd.
  - by rewrite IHd.
  - by rewrite IHd.
  - by rewrite IHd.
  - by rewrite IHd.
Qed.

Lemma to_uint_normal (n : N) : Decimal.unorm (N.to_uint n) = N.to_uint n.
Proof. by rewrite <- Unsigned.to_of, Unsigned.of_to. Qed.

Lemma to_uint_nonnil (n : N) : N.to_uint n ≠ Decimal.Nil.
Proof. rewrite <- to_uint_normal. apply unorm_nonnil. Qed.

Lemma to_uint_zero_head (n : N) d :
  N.to_uint n = Decimal.D0 d → d = Decimal.Nil.
Proof.
  intros Hd. pose proof (to_uint_normal n) as Hn. unfold Decimal.unorm in Hn.
  destruct (Decimal.nzhead (N.to_uint n)) eqn:Hz.
  - rewrite <- Hn in Hd. by injection Hd.
  - rewrite <- Hn in Hd. by apply nzhead_nonzero in Hz.
  - by rewrite <- Hn in Hd.
  - by rewrite <- Hn in Hd.
  - by rewrite <- Hn in Hd.
  - by rewrite <- Hn in Hd.
  - by rewrite <- Hn in Hd.
  - by rewrite <- Hn in Hd.
  - by rewrite <- Hn in Hd.
  - by rewrite <- Hn in Hd.
  - by rewrite <- Hn in Hd.
Qed.

Lemma uint_units_head d :
  d ≠ Decimal.Nil →
  ∃ c t, uint_units d = c :: t ∧ is_digit c = true.
Proof. destruct d; [done|..]; intros _; simpl; eauto. Qed.

Lemma signed_abs z : signed (z <? 0)%Z (N.to_uint (Z.abs_N z)) = z.
Proof.
  unfold signed. rewrite Unsigned.of_to.
  destruct (Z.ltb_spec z 0); lia.
Qed.

Lemma read_sign_toString z rest :
  read_sign (Number_toString z ++ rest)
  = ((z <? 0)%Z, uint_units (N.to_uint (Z.abs_N z)) ++ rest).
Proof.
  unfold Number_toString. destruct (z <? 0)%Z; [done|].
  destruct (uint_units_head _ (to_uint_nonnil (Z.abs_N z))) as (c & t & -> & Hc).
  simpl. destruct (N.eqb_spec c 45) as [->|]; done.
Qed.

Lemma number_toString_head z :
  ∃ c t, Number_toString z = c :: t ∧ (c = 45 ∨ is_digit c = true).
Proof.
  unfold Number_toString. destruct (z <? 0)%Z; [eauto|].
  destruct (uint_units_head _ (to_uint_nonnil (Z.abs_N z))) as (c & t & -> & Hc).
  eauto.
Qed.

Lemma read_fraction_none rest :
  match rest with [] => True | c :: _ => c ≠ 46 end →
  read_fraction rest = Some (Decimal.Nil, rest).
Proof.
  destruct rest as [|c rest]; [done|]. intros Hc. simpl.
  by rewrite (proj2 (N.eqb_neq c 46)).
Qed.

Lemma read_exponent_none rest :
  match rest with [] => True | c :: _ => c ≠ 101 ∧ c ≠ 69 end →
  read_exponent rest = Some (0%Z, rest).
Proof.
  destruct rest as [|c rest]; [done|]. intros [H1 H2]. simpl.
  by rewrite (proj2 (N.eqb_neq c 101)), (proj2 (N.eqb_neq c 69)).
Qed.

Lemma read_exponent_toString e rest :
  not_digit_head rest →
  read_exponent (101 :: Number_toString e ++ rest) = Some (e, rest).
Proof.
  intros Hrest. cbn [read_exponent]. change (101 =? 101) with true.
  cbn [orb].
  assert (Hsign :
    match Number_toString e ++ rest with
    | c1 :: r' =>
      if c1 =? 45 then (true, r')
      else if c1 =? 43 then (false, r') else (false, Number_toString e ++ rest)
    | [] => (false, Number_toString e ++ rest)
    end = ((e <? 0)%Z, uint_units (N.to_uint (Z.abs_N e)) ++ rest)).
  { unfold Number_toString. destruct (e <? 0)%Z; [done|].
    destruct (uint_units_head _ (to_uint_nonnil (Z.abs_N e)))
      as (c & t & -> & Hc).
    simpl. unfold is_digit in Hc. apply andb_true_iff in Hc as [H1 H2].
    apply N.leb_le in H1, H2.
    rewrite (proj2 (N.eqb_neq c 45)), (proj2 (N.eqb_neq c 43)) by lia. done. }
  rewrite Hsign, read_digits_units by done.
  pose proof (to_uint_nonnil (Z.abs_N e)) as Hnn.
  pose proof (signed_abs e) as Hs.
  destruct (N.to_uint (Z.abs_N e)); [done|..]; by rewrite Hs.
Qed.

Lemma leading_zero_free {A} (n : N) (bad good : A) :
  match N.to_uint n with
  | Decimal.Nil => bad
  | Decimal.D0 (Decimal.D0 _ | Decimal.D1 _ | Decimal.D2 _ | Decimal.D3 _
                | Decimal.D4 _ | Decimal.D5 _ | Decimal.D6 _ | Decimal.D7 _
                | Decimal.D8 _ | Decimal.D9 _) => bad
  | _ => good
  end = good.
Proof.
  pose proof (to_uint_nonnil n) as Hnn.
  pose proof (to_uint_zero_head n) as Hz.
  destruct (N.to_uint n) as [|d| | | | | | | | |]; try done.
  by rewrite (Hz d eq_refl).
Qed.

Lemma parse_number_stringify m e rest :
  number_end rest →
  parse_number (stringify_number m e ++ rest) = Some (JNum m e, rest).
Proof.
  intros Hend. unfold parse_number, stringify_number.
  rewrite <- app_assoc, read_sign_toString.
  destruct (Z.eqb_spec e 0) as [->|Hne].
  - cbn [app]. rewrite read_digits_units by by apply number_end_not_digit.
    rewrite leading_zero_free.
    rewrite read_fraction_none, read_exponent_none
      by (destruct rest; [done|]; destruct Hend as (?&?&?&?); done).
    rewrite DecimalFacts.app_nil_r, signed_abs. done.
  - rewrite read_digits_units by done.
    rewrite leading_zero_free.
    rewrite read_fraction_none by done. cbn [app].
    rewrite read_exponent_toString by by apply number_end_not_digit.
    rewrite DecimalFacts.app_nil_r, signed_abs. simpl. by rewrite Z.sub_0_r.
Qed.
Lemma digit_or_minus_plain c :
  c = 45 ∨ is_digit c = true →
  is_json_space c = false ∧ c ≠ 93 ∧ c ≠ 125 ∧ c ≠ 34 ∧ c ≠ 91 ∧ c ≠ 123
  ∧ c ≠ 110 ∧ c ≠ 116 ∧ c ≠ 102.
Proof.
  unfold is_digit, is_json_space. rewrite andb_true_iff, !N.leb_le.
  intros Hc.
  assert (c ≠ 32 ∧ c ≠ 9 ∧ c ≠ 10 ∧ c ≠ 13) as (?&?&?&?) by lia.
  rewrite !(proj2 (N.eqb_neq c _)) by done. split; [done|]. lia.
Qed.

Lemma stringify_number_head m e :
  ∃ c t, stringify_number m e = c :: t ∧ (c = 45 ∨ is_digit c = true).
Proof.
  unfold stringify_number.
  destruct (number_toString_head m) as (c & t & -> & Hc). eauto.
Qed.

Lemma stringify_starts_value v : starts_value (JSON_stringify v).
Proof.
  unfold starts_value. destruct v as [|[]|m e|s|l|l]; simpl.
  - exists 110, [117; 108; 108]. by vm_compute.
  - exists 116, [114; 117; 101]. by vm_compute.
  - exists 102, [97; 108; 115; 101]. by vm_compute.
  - destruct (stringify_number_head m e) as (c & t & -> & Hc).
    exists c, t. apply digit_or_minus_plain in Hc as (? & ? & ? & _). done.
  - unfold quote. by eexists 34, _.
  - by eexists 91, _.
  - by eexists 123, _.
Qed.

Lemma skip_ws_starts_value t rest :
  starts_value t → skip_ws (t ++ rest) = t ++ rest.
Proof. intros (c & t' & -> & Hc & _). simpl. by rewrite Hc. Qed.

Lemma skip_ws_plain c t : is_json_space c = false → skip_ws (c :: t) = c :: t.
Proof. intros H. simpl. by rewrite H. Qed.

Lemma join_cons_cons sep (p q : jsstring) (ps : list jsstring) :
  join sep (p :: q :: ps) = p ++ sep ++ join sep (q :: ps).
Proof. done. Qed.

Lemma starts_value_app t rest : starts_value t → starts_value (t ++ rest).
Proof. intros (c & t' & -> & H). by exists c, (t' ++ rest). Qed.

Lemma parse_value_null fuel rest :
  parse_value (S fuel) (utf16 "null" ++ rest) = Some (JNull, rest).
Proof. done. Qed.

Lemma parse_value_bool fuel (b : bool) rest :
  parse_value (S fuel) ((if b then utf16 "true" else utf16 "false") ++ rest)
  = Some (JBool b, rest).
Proof. by destruct b. Qed.

Lemma parse_value_string fuel s rest :
  parse_value (S fuel) (quote s ++ rest) = Some (JStr s, rest).
Proof.
  destruct (parse_quote s rest) as (t & -> & Ht).
  cbn [parse_value]. change (34 =? 34) with true. cbn iota. by rewrite Ht.
Qed.

Lemma parse_value_number fuel m e rest :
  number_end rest →
  parse_value (S fuel) (stringify_number m e ++ rest) = Some (JNum m e, rest).
Proof.
  intros Hend. rewrite <- (parse_number_stringify m e rest Hend).
  destruct (stringify_number_head m e) as (c & t & -> & Hc).
  apply digit_or_minus_plain in Hc as (_ & _ & _ & ? & ? & ? & ? & ? & ?).
  cbn [parse_value app].
  by rewrite !(proj2 (N.eqb_neq c _)) by done.
Qed.

Lemma separator_number_end c rest :
  c = 44 ∨ c = 93 ∨ c = 125 → number_end (c :: rest).
Proof. intros [-> | [-> | ->]]; done. Qed.

Lemma join_starts_value {A} (f : A → jsstring) (v : A) (l : list A) :
  starts_value (f v) → starts_value (join [44] (map f (v :: l))).
Proof.
  intros (c & t' & Heq & H). destruct l as [|v2 l].
  - simpl. rewrite Heq. by exists c, t'.
  - rewrite map_cons, (map_cons _ v2), join_cons_cons, Heq.
    by eexists c, _.
Qed.

Lemma parse_elements_join (l : list JsVal) :
  Forall parses l → l ≠ [] →
  ∀ fuel rest,
    (1 + length (join [44%N] (map JSON_stringify l)) ≤ fuel)%nat →
    parse_elements fuel (join [44] (map JSON_stringify l) ++ 93 :: rest)
    = Some (l, rest).
Proof.
  induction 1 as [|v l Hv Hl IH]; [done|]. intros _ fuel rest Hfuel.
  destruct fuel as [|fuel]; [lia|].
  destruct l as [|v2 l].
  - simpl in *. rewrite Hv; [|by apply separator_number_end; auto|lia].
    done.
  - rewrite map_cons, (map_cons _ v2), join_cons_cons in *.
    rewrite <- !app_assoc. rewrite !length_app in Hfuel.
    cbn [parse_elements].
    rewrite Hv; [|by apply separator_number_end; auto|lia].
    cbn [app]. rewrite (skip_ws_plain 44) by done.
    change (44 =? 44) with true. cbn iota.
    rewrite skip_ws_starts_value
      by (apply (join_starts_value JSON_stringify v2 l),
          stringify_starts_value).
    rewrite IH; [done|done|]. simpl in *. lia.
Qed.
Lemma member_starts_value kv : starts_value (member_text kv).
Proof. unfold member_text, quote. by eexists 34, _. Qed.

Lemma parse_members_join (l : list (jsstring * JsVal)) :
  Forall (fun kv => parses (snd kv)) l → l ≠ [] →
  ∀ fuel rest,
    (1 + length (join [44%N] (map member_text l)) ≤ fuel)%nat →
    parse_members fuel (join [44] (map member_text l) ++ 125 :: rest)
    = Some (l, rest).
Proof.
  induction 1 as [|[k v] l Hv Hl IH]; [done|]. intros _ fuel rest Hfuel.
  destruct fuel as [|fuel]; [lia|]. simpl in Hv.
  assert (Hmember : ∀ tail, number_end tail →
    (length (JSON_stringify v) ≤ fuel)%nat →
    ∃ t, member_text (k, v) ++ tail = 34 :: t
         ∧ parse_string_units t = Some (k, 58 :: JSON_stringify v ++ tail)
         ∧ parse_value fuel (JSON_stringify v ++ tail) = Some (v, tail)).
  { intros tail Hend Hlen. unfold member_text. cbn [fst snd].
    rewrite <- app_assoc. cbn [app].
    destruct (parse_quote k (58 :: JSON_stringify v ++ tail)) as (t & -> & Ht).
    exists t. split_and!; [done..|]. by apply Hv. }
  destruct l as [|kv2 l].
  - cbn [map join] in *. unfold member_text in Hfuel. cbn [fst snd] in Hfuel.
    rewrite length_app in Hfuel. cbn [length] in Hfuel.
    destruct (Hmember (125 :: rest)) as (t & -> & Ht & Hval);
      [by apply separator_number_end; auto|lia|].
    cbn [parse_members]. change (34 =? 34) with true. cbn iota.
    rewrite Ht. rewrite (skip_ws_plain 58) by done.
    change (58 =? 58) with true. cbn iota.
    rewrite skip_ws_starts_value by apply stringify_starts_value.
    rewrite Hval. by rewrite (skip_ws_plain 125).
  - rewrite map_cons, (map_cons _ kv2), join_cons_cons in *.
    rewrite <- !app_assoc. rewrite !length_app in Hfuel.
    unfold member_text at 1 in Hfuel. cbn [fst snd] in Hfuel.
    rewrite length_app in Hfuel. cbn [length] in Hfuel.
    destruct (Hmember ([44] ++ join [44] (member_text kv2 :: map member_text l)
                        ++ 125 :: rest)) as (t & -> & Ht & Hval);
      [by apply separator_number_end; auto|lia|].
    cbn [parse_members]. change (34 =? 34) with true. cbn iota.
    rewrite Ht. rewrite (skip_ws_plain 58) by done.
    change (58 =? 58) with true. cbn iota.
    rewrite skip_ws_starts_value by apply stringify_starts_value.
    rewrite Hval. cbn [app]. rewrite (skip_ws_plain 44) by done.
    change (44 =? 44) with true. cbn iota.
    rewrite skip_ws_starts_value
      by (apply (join_starts_value member_text kv2 l), member_starts_value).
    rewrite IH; [done|done|]. simpl in *. lia.
Qed.

Lemma parse_value_array fuel t rest :
  starts_value t →
  parse_value (S fuel) (91 :: t ++ rest)
  = match parse_elements fuel (t ++ rest) with
    | Some (vs, r2) => Some (JArr vs, r2)
    | None => None
    end.
Proof.
  intros (c & t' & -> & Hsp & H93 & _). cbn [parse_value app].
  change (91 =? 34) with false. change (91 =? 91) with true. cbn iota.
  rewrite skip_ws_plain by done. by rewrite (proj2 (N.eqb_neq c 93)).
Qed.

Lemma parse_value_object fuel t rest :
  starts_value t →
  parse_value (S fuel) (123 :: t ++ rest)
  = match parse_members fuel (t ++ rest) with
    | Some (ms, r2) => Some (JObj ms, r2)
    | None => None
    end.
Proof.
  intros (c & t' & -> & Hsp & _ & H125). cbn [parse_value app].
  change (123 =? 34) with false. change (123 =? 91) with false.
  change (123 =? 123) with true. cbn iota.
  rewrite skip_ws_plain by done. by rewrite (proj2 (N.eqb_neq c 125)).
Qed.

Lemma parses_all v : parses v.
Proof.
  induction v as [|b|m e|s|l IH|l IH] using JsVal_nested_ind;
    intros fuel rest Hend Hfuel.
  - destruct fuel as [|fuel]; [simpl in Hfuel; lia|]. apply parse_value_null.
  - destruct fuel as [|fuel]; [destruct b; simpl in Hfuel; lia|].
    destruct b;
      [apply (parse_value_bool fuel true rest)
      |apply (parse_value_bool fuel false rest)].
  - destruct fuel as [|fuel].
    + destruct (stringify_number_head m e) as (c & t & Heq & _).
      simpl in Hfuel. rewrite Heq in Hfuel. simpl in Hfuel. lia.
    + by apply parse_value_number.
  - destruct fuel as [|fuel]; [simpl in Hfuel; lia|].
    apply parse_value_string.
  - cbn [JSON_stringify] in *. cbn [length] in Hfuel.
    rewrite length_app in Hfuel. cbn [length] in Hfuel.
    destruct fuel as [|fuel]; [lia|].
    destruct l as [|v l]; [done|].
    cbn [app]. rewrite <- app_assoc. cbn [app].
    rewrite parse_value_array
      by apply (join_starts_value JSON_stringify v l), stringify_starts_value.
    rewrite parse_elements_join; [done|done|done|lia].
  - change (JSON_stringify (JObj l))
      with (123 :: join [44] (map member_text l) ++ [125]) in *.
    cbn [length] in Hfuel.
    rewrite length_app in Hfuel. cbn [length] in Hfuel.
    destruct fuel as [|fuel]; [lia|].
    destruct l as [|kv l]; [done|].
    cbn [app]. rewrite <- app_assoc. cbn [app].
    rewrite parse_value_object
      by apply (join_starts_value member_text kv l), member_starts_value.
    rewrite (parse_members_join (kv :: l)); [done|done|done|lia].
Qed.

(** Parsing the text [JSON.stringify] wrote gives the value back. *)
Lemma JSON_parse_stringify v : JSON_parse (JSON_stringify v) = Some v.
Proof.
  unfold JSON_parse.
  pose proof (skip_ws_starts_value _ [] (stringify_starts_value v)) as Hskip.
  assert (Hfuel : (length (JSON_stringify v)
                   ≤ 2 * length (JSON_stringify v) + 2)%nat) by lia.
  pose proof (parses_all v _ [] I Hfuel) as Hparse.
  rewrite app_nil_r in Hskip, Hparse. by rewrite Hskip, Hparse.
Qed.
End json_round_trip.

(** ** JSON: the parser's fuel *)
Section json_fuel.
Implicit Types (s t r rest : jsstring) (c : N) (v : JsVal) (fuel : nat).

Lemma skip_ws_length s : (length (skip_ws s) ≤ length s)%nat.
Proof.
  induction s as [|c s IH]; simpl; [done|].
  destruct (is_json_space c); simpl; lia.
Qed.

Lemma parse_string_units_shorter s str r :
  parse_string_units s = Some (str, r) → (length r < length s)%nat.
Proof.
  remember (length s) as n eqn:Hn. revert s str r Hn.
  induction n as [n IH] using lt_wf_ind. intros s str r -> H.
  destruct s as [|c s]; [done|]. cbn [parse_string_units] in H.
  destruct (c =? 34); [injection H as _ <-; simpl; lia|].
  assert (Hpush : ∀ u t, (length t ≤ length s)%nat →
            push_unit u (parse_string_units t) = Some (str, r) →
            (length r < length (c :: s))%nat).
  { intros u t Ht Hp. unfold push_unit in Hp.
    destruct (parse_string_units t) as [[str' r']|] eqn:Hrec; [|done].
    injection Hp as _ <-.
    apply (IH (length t)) in Hrec; simpl; [lia|lia|done]. }
  destruct (c =? 92).
  - destruct s as [|e s1]; [done|].
    destruct (e =? 117).
    + destruct s1 as [|a [|b [|c' [|d s2]]]]; try done.
      destruct (hex4 a b c' d); [|done].
      apply Hpush in H; [done|simpl; lia].
    + destruct (simple_escape e); [|done].
      apply Hpush in H; [done|simpl; lia].
  - destruct (c <? 32); [done|]. apply Hpush in H; [done|lia].
Qed.

Lemma read_digits_length s d r :
  read_digits s = (d, r) → (length r + Decimal.nb_digits d = length s)%nat.
Proof.
  revert d r. induction s as [|c s IH]; intros d r; simpl.
  - by intros [= <- <-].
  - destruct (is_digit c).
    + destruct (read_digits s) as [d' r'] eqn:Hrec. intros [= <- <-].
      specialize (IH d' r' eq_refl). unfold digit_cons.
      repeat (destruct (c =? _); [simpl; lia|]). simpl. lia.
    + intros [= <- <-]. simpl. lia.
Qed.

Lemma read_sign_length s neg r :
  read_sign s = (neg, r) → (length r ≤ length s)%nat.
Proof.
  destruct s as [|c s]; simpl; [by intros [= _ <-]|].
  destruct (c =? 45); intros [= _ <-]; simpl; lia.
Qed.

Lemma read_fraction_length s d r :
  read_fraction s = Some (d, r) → (length r ≤ length s)%nat.
Proof.
  destruct s as [|c s]; simpl; [by intros [= _ <-]|].
  destruct (c =? 46); [|intros [= _ <-]; simpl; lia].
  destruct (read_digits s) as [d' r'] eqn:Hrec.
  apply read_digits_length in Hrec.
  destruct d'; [done|..]; intros [= _ <-]; simpl; lia.
Qed.

Lemma read_exponent_length s z r :
  read_exponent s = Some (z, r) → (length r ≤ length s)%nat.
Proof.
  destruct s as [|c s]; simpl; [by intros [= _ <-]|].
  destruct ((c =? 101) || (c =? 69)); [|intros [= _ <-]; simpl; lia].
  destruct (match s with
            | [] => (false, s)
            | c1 :: r' => if c1 =? 45 then (true, r')
                          else if c1 =? 43 then (false, r') else (false, s)
            end) as [neg r1] eqn:Hsign.
  assert (length r1 ≤ length s)%nat.
  { destruct s as [|c1 s']; [by injection Hsign as _ <-|].
    destruct (c1 =? 45); [injection Hsign as _ <-; simpl; lia|].
    destruct (c1 =? 43); injection Hsign as _ <-; simpl; lia. }
  destruct (read_digits r1) as [d' r'] eqn:Hrec.
  apply read_digits_length in Hrec.
  destruct d'; [done|..]; intros [= _ <-]; simpl; lia.
Qed.

Lemma parse_number_shorter s v r :
  parse_number s = Some (v, r) → (length r < length s)%nat.
Proof.
  unfold parse_number.
  destruct (read_sign s) as [neg s1] eqn:Hsign.
  destruct (read_digits s1) as [ip s2] eqn:Hdigits.
  apply read_sign_length in Hsign. apply read_digits_length in Hdigits.
  assert (Hrest : ∀ (x : option (JsVal * jsstring)),
            x = match read_fraction s2 with
                | None => None
                | Some (fp, s3) =>
                  match read_exponent s3 with
                  | None => None
                  | Some (ex, s4) =>
                    Some (JNum (signed neg (Decimal.app ip fp))
                               (ex - Z.of_nat (Decimal.nb_digits fp)), s4)
                  end
                end →
            x = Some (v, r) → (length r ≤ length s2)%nat).
  { intros x -> Hx.
    destruct (read_fraction s2) as [[fp s3]|] eqn:Hf; [|done].
    destruct (read_exponent s3) as [[ex s4]|] eqn:He; [|done].
    injection Hx as _ <-.
    apply read_fraction_length in Hf. apply read_exponent_length in He. lia. }
  destruct ip as [|d|d|d|d|d|d|d|d|d|d]; [done|..];
    try (intros H; apply (Hrest _ eq_refl) in H; simpl in Hdigits; lia).
  destruct d; try done;
    intros H; apply (Hrest _ eq_refl) in H; simpl in Hdigits; lia.
Qed.

Lemma expect_word_shorter w v s v' r :
  w ≠ [] → expect_word w v s = Some (v', r) → (length r < length s)%nat.
Proof.
  unfold expect_word. intros Hw.
  destruct (startsWith s w) eqn:Hs; [|done]. intros [= _ <-].
  apply startsWith_prefix in Hs as [post ->].
  rewrite drop_app_length. rewrite length_app. destruct w; [done|simpl; lia].
Qed.
Lemma skip_ws_cons_length s c r :
  skip_ws s = c :: r → (length r < length s)%nat.
Proof.
  intros H. pose proof (skip_ws_length s) as Hlen. rewrite H in Hlen.
  simpl in Hlen. lia.
Qed.

(** Every successful parse consumes at least one code unit. *)
Lemma parse_shorter fuel :
  (∀ s v r, parse_value fuel s = Some (v, r) → (length r < length s)%nat)
  ∧ (∀ s vs r, parse_elements fuel s = Some (vs, r) → (length r < length s)%nat)
  ∧ (∀ s ms r, parse_members fuel s = Some (ms, r) → (length r < length s)%nat).
Proof.
  induction fuel as [|fuel (IHv & IHe & IHm)]; [by split_and!|].
  split_and!.
  - intros [|c r0] v r; [done|]. cbn [parse_value].
    destruct (c =? 34).
    { destruct (parse_string_units r0) as [[str r1]|] eqn:Hs; [|done].
      intros [= _ <-]. apply parse_string_units_shorter in Hs. simpl. lia. }
    destruct (c =? 91).
    { destruct (skip_ws r0) as [|d r1] eqn:Hskip; [done|].
      apply skip_ws_cons_length in Hskip as Hlen.
      destruct (d =? 93); [intros [= _ <-]; simpl; lia|].
      destruct (parse_elements fuel (d :: r1)) as [[vs r2]|] eqn:He; [|done].
      intros [= _ <-]. apply IHe in He. simpl in *. lia. }
    destruct (c =? 123).
    { destruct (skip_ws r0) as [|d r1] eqn:Hskip; [done|].
      apply skip_ws_cons_length in Hskip as Hlen.
      destruct (d =? 125); [intros [= _ <-]; simpl; lia|].
      destruct (parse_members fuel (d :: r1)) as [[ms r2]|] eqn:Hm; [|done].
      intros [= _ <-]. apply IHm in Hm. simpl in *. lia. }
    destruct (c =? 110); [by apply expect_word_shorter|].
    destruct (c =? 116); [by apply expect_word_shorter|].
    destruct (c =? 102); [by apply expect_word_shorter|].
    apply parse_number_shorter.
  - intros s vs r. cbn [parse_elements].
    destruct (parse_value fuel s) as [[v r0]|] eqn:Hv; [|done].
    apply IHv in Hv.
    destruct (skip_ws r0) as [|c r1] eqn:Hskip; [done|].
    apply skip_ws_cons_length in Hskip.
    destruct (c =? 44).
    + destruct (parse_elements fuel (skip_ws r1)) as [[vs' r2]|] eqn:He; [|done].
      intros [= _ <-]. apply IHe in He.
      pose proof (skip_ws_length r1). lia.
    + destruct (c =? 93); [|done]. intros [= _ <-]. lia.
  - intros [|q r0] ms r; [done|]. cbn [parse_members].
    destruct (q =? 34); [|done].
    destruct (parse_string_units r0) as [[key r1]|] eqn:Hs; [|done].
    apply parse_string_units_shorter in Hs.
    destruct (skip_ws r1) as [|c r2] eqn:Hskip1; [done|].
    apply skip_ws_cons_length in Hskip1.
    destruct (c =? 58); [|done].
    destruct (parse_value fuel (skip_ws r2)) as [[v r3]|] eqn:Hv; [|done].
    apply IHv in Hv. pose proof (skip_ws_length r2).
    destruct (skip_ws r3) as [|c1 r4] eqn:Hskip3; [done|].
    apply skip_ws_cons_length in Hskip3.
    destruct (c1 =? 44).
    + destruct (parse_members fuel (skip_ws r4)) as [[ms' r5]|] eqn:Hm; [|done].
      intros [= _ <-]. apply IHm in Hm.
      pose proof (skip_ws_length r4). simpl. lia.
    + destruct (c1 =? 125); [|done]. intros [= _ <-]. simpl. lia.
Qed.

(** With two units of fuel per code unit the parser never runs out:
    more fuel gives the same result. *)
Lemma parse_stable (n : nat) :
  (∀ s f1 f2, (length s ≤ n)%nat → (2 * n + 1 ≤ f1)%nat → (2 * n + 1 ≤ f2)%nat →
     parse_value f1 s = parse_value f2 s)
  ∧ (∀ s f1 f2, (length s ≤ n)%nat → (2 * n + 2 ≤ f1)%nat → (2 * n + 2 ≤ f2)%nat →
     parse_elements f1 s = parse_elements f2 s)
  ∧ (∀ s f1 f2, (length s ≤ n)%nat → (2 * n + 2 ≤ f1)%nat → (2 * n + 2 ≤ f2)%nat →
     parse_members f1 s = parse_members f2 s).
Proof.
  induction n as [n IH] using lt_wf_ind.
  assert (IHe : ∀ s f1 f2, (length s < n)%nat → (2 * n ≤ f1)%nat →
            (2 * n ≤ f2)%nat → parse_elements f1 s = parse_elements f2 s).
  { intros s f1 f2 Hs H1 H2. destruct n as [|n']; [lia|].
    destruct (IH n' ltac:(lia)) as (_ & He & _). apply He; lia. }
  assert (IHm : ∀ s f1 f2, (length s < n)%nat → (2 * n ≤ f1)%nat →
            (2 * n ≤ f2)%nat → parse_members f1 s = parse_members f2 s).
  { intros s f1 f2 Hs H1 H2. destruct n as [|n']; [lia|].
    destruct (IH n' ltac:(lia)) as (_ & _ & Hm). apply Hm; lia. }
  assert (Hv : ∀ s f1 f2, (length s ≤ n)%nat → (2 * n + 1 ≤ f1)%nat →
            (2 * n + 1 ≤ f2)%nat → parse_value f1 s = parse_value f2 s).
  { intros s f1 f2 Hs H1 H2.
    destruct f1 as [|f1]; [lia|]. destruct f2 as [|f2]; [lia|].
    destruct s as [|c r0]; [done|]. cbn [parse_value]. simpl in Hs.
    destruct (c =? 34); [done|].
    destruct (c =? 91).
    { destruct (skip_ws r0) as [|d r1] eqn:Hskip; [done|].
      apply skip_ws_cons_length in Hskip.
      destruct (d =? 93); [done|].
      rewrite (IHe (d :: r1) f1 f2); [done|simpl; lia|lia|lia]. }
    destruct (c =? 123); [|done].
    destruct (skip_ws r0) as [|d r1] eqn:Hskip; [done|].
    apply skip_ws_cons_length in Hskip.
    destruct (d =? 125); [done|].
    rewrite (IHm (d :: r1) f1 f2); [done|simpl; lia|lia|lia]. }
  split_and!; [done|..].
  - intros s f1 f2 Hs H1 H2.
    destruct f1 as [|f1]; [lia|]. destruct f2 as [|f2]; [lia|].
    cbn [parse_elements]. rewrite (Hv s f1 f2) by lia.
    destruct (parse_value f2 s) as [[v r0]|] eqn:Hval; [|done].
    apply (proj1 (parse_shorter f2)) in Hval.
    destruct (skip_ws r0) as [|c r1] eqn:Hskip; [done|].
    apply skip_ws_cons_length in Hskip. pose proof (skip_ws_length r1).
    destruct (c =? 44); [|done].
    rewrite (IHe (skip_ws r1) f1 f2); [done|lia..].
  - intros s f1 f2 Hs H1 H2.
    destruct f1 as [|f1]; [lia|]. destruct f2 as [|f2]; [lia|].
    destruct s as [|q r0]; [done|]. cbn [parse_members]. simpl in Hs.
    destruct (q =? 34); [|done].
    destruct (parse_string_units r0) as [[key r1]|] eqn:Hstr; [|done].
    apply parse_string_units_shorter in Hstr.
    destruct (skip_ws r1) as [|c r2] eqn:Hskip1; [done|].
    apply skip_ws_cons_length in Hskip1. pose proof (skip_ws_length r2).
    destruct (c =? 58); [|done].
    rewrite (Hv (skip_ws r2) f1 f2) by lia.
    destruct (parse_value f2 (skip_ws r2)) as [[v r3]|] eqn:Hval; [|done].
    apply (proj1 (parse_shorter f2)) in Hval.
    destruct (skip_ws r3) as [|c1 r4] eqn:Hskip3; [done|].
    apply skip_ws_cons_length in Hskip3. pose proof (skip_ws_length r4).
    destruct (c1 =? 44); [|done].
    rewrite (IHm (skip_ws r4) f1 f2); [done|lia..].
Qed.

(** [JSON_parse] gives its text fuel enough: a [None] is a syntax
    error, never an exhausted budget. *)
Lemma JSON_parse_fuel text fuel :
  (2 * length text + 2 ≤ fuel)%nat →
  parse_value fuel (skip_ws text)
  = parse_value (2 * length text + 2) (skip_ws text).
Proof.
  intros Hfuel. pose proof (skip_ws_length text).
  apply (proj1 (parse_stable (length text))); lia.
Qed.
End json_fuel.

(** ** Persistence *)
Section persistence.
Implicit Types (c : Cart) (l : list CartItem) (ls : LocalStorage)
  (log : list jsstring) (text : jsstring).

Lemma js_of_item_inj (x y : CartItem) : js_of_item x = js_of_item y → x = y.
Proof.
  destruct x as [[i1 n1 d1 p1 c1 g1] q1], y as [[i2 n2 d2 p2 c2 g2] q2].
  unfold js_of_item. cbn [id name description price category image
                           product quantity].
  intros [=]. by subst.
Qed.

(** Equal arrays hold the same entries in the same order. *)
Lemma js_of_items_inj l l' : js_of_items l = js_of_items l' → l = l'.
Proof.
  unfold js_of_items. intros [= H]. revert l' H.
  induction l as [|x l IH]; intros [|y l'] H; try done.
  cbn [map] in H.
  assert (Hx : js_of_item x = js_of_item y) by congruence.
  assert (Hl : map js_of_item l = map js_of_item l') by congruence.
  f_equal; [by apply js_of_item_inj|by apply IH].
Qed.

Lemma stringify_truthy v : truthy_str (JSON_stringify v) = true.
Proof. by destruct (stringify_starts_value v) as (ch & t & -> & _). Qed.

Lemma saveToStorage_accepted c ls' :
  setItem (JSON_stringify (js_of_items (items c))) (localStorage c) = Some ls' →
  saveToStorage c
  = {| items := items c; localStorage := ls'; console := console c |}
  ∧ getItem ls' = Some (Some (JSON_stringify (js_of_items (items c)))).
Proof.
  intros Hset. unfold saveToStorage. rewrite Hset. split; [done|].
  unfold setItem in Hset. unfold getItem.
  destruct (blocked (localStorage c)) eqn:Hb; [done|].
  destruct (match quota (localStorage c) with
            | Some q => _ | None => false end); [done|].
  by injection Hset as <-.
Qed.

Lemma loadFromStorage_stored (s : State JsVal) text v :
  getItem (localStorage s) = Some (Some text) → text ≠ [] →
  JSON_parse text = Some v →
  loadFromStorage s = with_items v s.
Proof.
  intros Hget Hne Hparse. unfold loadFromStorage. rewrite Hget, Hparse.
  by destruct text.
Qed.

(** C4: once [saveToStorage] has written the cart, [loadFromStorage],
    in the same cart object or in one constructed anew over that
    storage, yields its entry list: the same entries, with the same ids
    and quantities, in the same order.  The write is the one thing that
    can fail: a storage that refuses it keeps what it had. *)
Theorem storage_round_trip c :
  is_Some (setItem (JSON_stringify (js_of_items (items c))) (localStorage c)) →
  (∀ current : JsVal,
     items (loadFromStorage (with_items current (saveToStorage c)))
     = js_of_items (items c))
  ∧ (∀ log, items (ProductCart.new (localStorage (saveToStorage c)) log)
            = js_of_items (items c))
  ∧ (∀ l, js_of_items l = js_of_items (items c) → l = items c).
Proof.
  intros [ls' Hset].
  destruct (saveToStorage_accepted c ls' Hset) as [Hsave Hget].
  assert (Hne : JSON_stringify (js_of_items (items c)) ≠ []).
  { intros Heq. pose proof (stringify_truthy (js_of_items (items c))) as Ht.
    by rewrite Heq in Ht. }
  split_and!.
  - intros current. rewrite Hsave.
    by erewrite loadFromStorage_stored;
      [|exact Hget|exact Hne|apply JSON_parse_stringify].
  - intros log. rewrite Hsave. unfold ProductCart.new.
    by erewrite loadFromStorage_stored;
      [|exact Hget|exact Hne|apply JSON_parse_stringify].
  - intros l Hl. by apply js_of_items_inj.
Qed.

End persistence.

(** ** The examples of the specification, and where the code departs from
    its wording *)
Section examples.
Import FormValidator.

(** C1 as stated does not hold: with a product of [2 ^ 53] roubles and
    one of a rouble in the cart, the total is [2 ^ 53], the double
    nearest to the sum of price times quantity, which is [2 ^ 53 + 1]. *)
Lemma calculateTotal_rounds :
  calculateTotal
    (perform_all [call_add bullion; call_add penny_sweet]
                 (empty_cart open_storage []))
  = finite (2 ^ 53)
  ∧ sum_price_times_quantity
      (items (perform_all [call_add bullion; call_add penny_sweet]
                          (empty_cart open_storage [])))
    = (2 ^ 53 + 1)%Z
  ∧ calculateTotal
      (perform_all [call_add bullion; call_add penny_sweet]
                   (empty_cart open_storage []))
    ≠ finite
        (sum_price_times_quantity
           (items (perform_all [call_add bullion; call_add penny_sweet]
                               (empty_cart open_storage [])))).
Proof.
  split_and!; [by vm_compute..|].
  intros Heq. vm_compute in Heq. discriminate.
Qed.

(** A shopping trip within the range of exact sums. *)
Lemma cart_invariants_witness :
  calculateTotal (perform_all shopping_trip (empty_cart open_storage []))
  = finite 124950
  ∧ getItemCount (perform_all shopping_trip (empty_cart open_storage []))
    = finite 5.
Proof.
  destruct (cart_invariants open_storage [] shopping_trip)
    as (_ & Htotal & Hcount).
  split.
  - rewrite Htotal; [by vm_compute|]. vm_compute. discriminate.
  - rewrite Hcount; [by vm_compute|]. vm_compute. discriminate.
Defined.


(** Quantity 0, quantity 5 and an unknown id on a one-entry cart. *)
Lemma updateQuantity_contract_witness :
  updateQuantity 7 0 cart_with_airpods = removeProduct 7 cart_with_airpods
  ∧ items (snd (updateQuantity 7 5 cart_with_airpods))
    = [ {| product := airpods; quantity := 5 |} ]
  ∧ updateQuantity 9 3 cart_with_airpods = (false, cart_with_airpods).
Proof.
  split_and!.
  - destruct (updateQuantity_contract 7 0 cart_with_airpods) as (Hzero & _ & _).
    apply Hzero. lia.
  - destruct (updateQuantity_contract 7 5 cart_with_airpods) as (_ & Hset & _).
    apply (Hset ltac:(lia) 0%nat {| product := airpods; quantity := 1 |}).
    split_and!; [reflexivity..|]. intros j item' Hj. lia.
  - destruct (updateQuantity_contract 9 3 cart_with_airpods) as (_ & _ & Habsent).
    apply Habsent. vm_compute. intros Hin.
    apply list_elem_of_singleton in Hin. discriminate.
Defined.

(** A cart of one entry, saved and loaded anew. *)
Lemma storage_round_trip_witness :
  items (ProductCart.new (localStorage (saveToStorage cart_with_airpods)) [])
  = js_of_items (items cart_with_airpods).
Proof.
  destruct (storage_round_trip cart_with_airpods) as (_ & Hnew & _).
  - eexists. vm_compute. reflexivity.
  - apply Hnew.
Defined.


(** C6 as stated does not hold: on an empty value of a field that is
    not required the minimum-length check fails, yet [validateField]
    reports no error. *)
Lemma validateField_skips_checks_when_empty :
  validateField [] rule_optional_min2 = None
  ∧ first_failing (trim []) rule_optional_min2 = Some (messages_minLength 2).
Proof. by vm_compute. Qed.

(** C7 as stated does not hold: nine characters with a lowercase letter,
    an uppercase letter and a digit, rejected for the exclamation mark. *)
Lemma password_rejects_punctuation :
  (8 ≤ length (utf16 "Passw0rd!"))%nat
  ∧ some_unit is_lower (utf16 "Passw0rd!")
  ∧ some_unit is_upper (utf16 "Passw0rd!")
  ∧ some_unit is_digit (utf16 "Passw0rd!")
  ∧ test (patterns password) (utf16 "Passw0rd!") = false.
Proof.
  split_and!.
  - vm_compute. lia.
  - apply Exists_exists. exists 97%N. by vm_compute; split; [set_solver|].
  - apply Exists_exists. exists 80%N. by vm_compute; split; [set_solver|].
  - apply Exists_exists. exists 48%N. by vm_compute; split; [set_solver|].
  - by vm_compute.
Qed.

(** Without the exclamation mark the same password is accepted. *)
Lemma password_pattern_accepts_witness :
  test (patterns password) (utf16 "Passw0rd") = true.
Proof.
  apply password_pattern_accepts. split_and!.
  - vm_compute. lia.
  - vm_compute. repeat constructor.
  - apply Exists_exists. exists 97%N. by vm_compute; split; [set_solver|].
  - apply Exists_exists. exists 80%N. by vm_compute; split; [set_solver|].
  - apply Exists_exists. exists 48%N. by vm_compute; split; [set_solver|].
Defined.

(** The lower-casing of the examples is such an engine. *)
Lemma search_keeps_surrounding_space_witness :
  fst (searchProducts toLowerCase_basic (utf16 " iphone") loaded_catalogue)
  = []
  ∧ map id (search_as_specified toLowerCase_basic (utf16 " iphone")
              (products loaded_catalogue))
    = [1%Z].
Proof.
  apply (search_keeps_surrounding_space toLowerCase_basic).
  intros s Hs. reflexivity.
Defined.

(** C9 as stated does not hold: the rules declare a required [email]
    field, the form has no such control, and [validateForm] reports
    success without having looked at it. *)
Lemma validateForm_skips_absent_field :
  isValid (validateForm form_with_name_only rules_name_and_email) = true
  ∧ ¬ looked_at form_with_name_only
        (validateForm form_with_name_only rules_name_and_email)
        (utf16 "email").
Proof.
  split; [by vm_compute|].
  intros (i & field & Hi & Hname & _).
  destruct i as [|i]; [|done].
  injection Hi as <-. vm_compute in Hname. discriminate.
Qed.

(** The control the form does have is validated and its error cleared. *)
Lemma validateForm_contract_witness :
  effect_of 0 (utf16 "name", utf16 "Bob") rule_required
  ∈ page (validateForm form_with_name_only rules_name_and_email).
Proof.
  destruct (validateForm_contract form_with_name_only rules_name_and_email)
    as (Heffect & _ & _).
  - vm_compute. reflexivity.
  - apply (Heffect (utf16 "name")).
    + apply elem_of_cons. left. reflexivity.
    + vm_compute. reflexivity.
Defined.

(** Blank values under a required and under an optional rule. *)
Lemma validateField_trims_witness :
  validateField (utf16 "   ") rule_required = Some messages_required
  ∧ validateField (utf16 "  ") rule_optional_min2 = None.
Proof.
  split.
  - destruct (validateField_trims (utf16 "   ") rule_required) as (_ & _ & Hreq).
    apply Hreq; [reflexivity|]. vm_compute. repeat constructor.
  - destruct (validateField_trims (utf16 "  ") rule_optional_min2) as (_ & Hopt & _).
    apply Hopt; [reflexivity|]. vm_compute. reflexivity.
Defined.

End examples.

(** ** Further properties of the cart *)

Section cart_more.
Implicit Types (c : Cart) (l : list CartItem) (item : CartItem) (p : Product).

Lemma filter_same_length (P : CartItem → Prop) `{∀ x, Decision (P x)} l :
  length (filter P l) = length l → filter P l = l.
Proof.
  induction l as [|x l IH]; [done|]. rewrite filter_cons.
  destruct (decide (P x)); simpl.
  - intros [= Hlen]. f_equal. by apply IH.
  - intros Hlen. pose proof (length_filter P l). lia.
Qed.

Lemma removeProduct_absent_iff (z : Z) l :
  length (filter (fun x : CartItem => id x ≠ z) l) = length l ↔ z ∉ ids l.
Proof.
  split.
  - intros Hlen Hin. apply filter_same_length in Hlen.
    unfold ids in Hin. apply list_elem_of_fmap in Hin as (x & -> & Hx).
    rewrite <- Hlen in Hx. apply list_elem_of_filter in Hx as [Hne _]. done.
  - intros Hout. by rewrite filter_other_ids.
Qed.

(** X1: [remove] reports whether the id was in the cart; afterwards the id
    is gone, the other entries are left in their order, and a cart
    without the id is unchanged; where ids are distinct exactly one entry
    goes. *)
Theorem removeProduct_contract (productId : Z) c :
  let after := snd (removeProduct productId c) in
  (fst (removeProduct productId c) = true ↔ productId ∈ ids (items c))
  ∧ (productId ∉ ids (items after))
  ∧ (∀ item, item ∈ items after ↔ item ∈ items c ∧ id item ≠ productId)
  ∧ sublist (items after) (items c)
  ∧ (productId ∉ ids (items c) → removeProduct productId c = (false, c))
  ∧ (productId ∈ ids (items c) → NoDup (ids (items c)) →
     S (length (items after)) = length (items c)).
Proof.
  intros after.
  assert (Hitems : items after = filter (fun x : CartItem => id x ≠ productId) (items c)).
  { unfold after, removeProduct. cbn [items with_items].
    case_bool_decide; simpl; [by rewrite items_saveToStorage|done]. }
  split_and!.
  - unfold removeProduct. cbn [items with_items].
    pose proof (removeProduct_absent_iff productId (items c)) as Habs.
    case_bool_decide as Hlen; simpl.
    + split; [|done]. intros _. destruct (decide (productId ∈ ids (items c))); [done|].
      exfalso. apply Hlen. by apply Habs.
    + split; [done|]. intros Hin. apply Habs in Hlen. done.
  - rewrite Hitems. unfold ids. intros Hin.
    apply list_elem_of_fmap in Hin as (x & Hid & Hx).
    apply list_elem_of_filter in Hx as [Hne _]. done.
  - intros item. rewrite Hitems, list_elem_of_filter. tauto.
  - rewrite Hitems. apply sublist_filter.
  - intros Hout. unfold removeProduct.
    rewrite (filter_other_ids _ _ Hout), with_items_same.
    by rewrite bool_decide_false by (intros Hne; by apply Hne).
  - intros Hin Hnd. rewrite Hitems. clear after Hitems.
    induction (items c) as [|x l IH]; [by apply elem_of_nil in Hin|].
    unfold ids in Hnd, Hin. cbn [map] in Hnd, Hin.
    apply NoDup_cons in Hnd as [Hx Hnd].
    rewrite filter_cons. destruct (decide (id x ≠ productId)) as [Hne|Heq].
    + simpl. f_equal. apply IH; [|done].
      apply elem_of_cons in Hin as [->|Hin]; done.
    + apply dec_stable in Heq. subst productId.
      rewrite filter_other_ids by done. done.
Qed.


Lemma removeProduct_items (z : Z) c :
  items (snd (removeProduct z c))
  = filter (fun x : CartItem => id x ≠ z) (items c).
Proof.
  unfold removeProduct. cbn [items with_items].
  case_bool_decide; simpl; [by rewrite items_saveToStorage|done].
Qed.

Lemma entry_ok_set_quantity item (q : Z) :
  entry_ok item → (q <=? 0)%Z = false → entry_ok (set_quantity q item).
Proof. by intros [Hv _] Hq. Qed.

Lemma entry_ok_addProduct p c :
  Forall entry_ok (items c) → Forall entry_ok (items (snd (addProduct p c))).
Proof.
  intros Hok. unfold addProduct.
  destruct (validateProduct p) eqn:Hp; simpl; [|done].
  rewrite items_saveToStorage. cbn [items with_items].
  destruct (list_find _ _) as [[i x]|] eqn:Hfind.
  - apply list_find_Some in Hfind as (Hi & _ & _).
    apply Forall_insert; [done|].
    assert (Hx : entry_ok x) by (eapply Forall_lookup_1; eauto).
    apply entry_ok_set_quantity; [done|]. destruct Hx as [_ Hq].
    apply Z.leb_gt in Hq. apply Z.leb_gt. lia.
  - apply Forall_app. split; [done|]. by repeat constructor.
Qed.

Lemma entry_ok_removeProduct z c :
  Forall entry_ok (items c) → Forall entry_ok (items (snd (removeProduct z c))).
Proof.
  intros Hok. rewrite removeProduct_items.
  apply Forall_forall. intros x Hx. apply list_elem_of_filter in Hx as [_ Hx].
  by eapply Forall_forall in Hok.
Qed.

Lemma entry_ok_updateQuantity z q c :
  Forall entry_ok (items c) →
  Forall entry_ok (items (snd (updateQuantity z q c))).
Proof.
  intros Hok. unfold updateQuantity.
  destruct (q <=? 0)%Z eqn:Hq; [by apply entry_ok_removeProduct|].
  destruct (list_find _ _) as [[i x]|] eqn:Hfind; simpl; [|done].
  rewrite items_saveToStorage. cbn [items with_items].
  apply list_find_Some in Hfind as (Hi & _ & _).
  apply Forall_insert; [done|].
  apply entry_ok_set_quantity; [by eapply Forall_lookup_1; eauto|done].
Qed.

(** X2: from an empty cart, whatever calls are made, every entry is a
    product that passes [validateProduct], in a quantity that is not
    [<= 0]; and setting a quantity that is [<= 0] leaves no entry of that
    id. *)
Theorem cart_entries_valid (ls : LocalStorage) (log : list jsstring)
    (calls : list CartCall) :
  let c := perform_all calls (empty_cart ls log) in
  Forall entry_ok (items c)
  ∧ ∀ (productId q : Z), (q ≤ 0)%Z →
      productId ∉ ids (items (snd (updateQuantity productId q c))).
Proof.
  intros c. split.
  - unfold c, perform_all.
    assert (Forall entry_ok (items (empty_cart ls log))) as H0 by constructor.
    revert H0. generalize (empty_cart ls log). intros c0 H0.
    revert c0 H0. induction calls as [|call calls IH]; intros c0 H0; [done|].
    cbn [fold_left]. apply IH.
    destruct call; cbn [perform];
      auto using entry_ok_addProduct, entry_ok_removeProduct,
                 entry_ok_updateQuantity.
  - intros productId q Hq. unfold updateQuantity.
    rewrite (proj2 (Z.leb_le _ _) Hq), removeProduct_items.
    unfold ids. intros Hin. apply list_elem_of_fmap in Hin as (x & Hid & Hx).
    apply list_elem_of_filter in Hx as [Hne _]. done.
Qed.
End cart_more.

(** ** The cart and its storage *)

Section cart_storage.
Implicit Types (c : Cart) (l : list CartItem) (item : CartItem) (p : Product)
  (ls : LocalStorage) (log : list jsstring).

Lemma saveToStorage_in_step log c :
  accepting (localStorage c) → console c = log → in_step log (saveToStorage c).
Proof.
  intros [Hb Hq] Hlog. unfold saveToStorage, setItem. rewrite Hb, Hq. simpl.
  split_and!; [by split| by left |done].
Qed.

Lemma in_step_with_items log c l :
  in_step log c → in_step log (saveToStorage (with_items l c)).
Proof. intros (Hacc & _ & Hlog). by apply saveToStorage_in_step. Qed.

Lemma in_step_addProduct log p c :
  in_step log c → in_step log (snd (addProduct p c)).
Proof.
  intros Hin. unfold addProduct. destruct (negb (validateProduct p)); [done|].
  cbn [snd]. by apply in_step_with_items.
Qed.

Lemma in_step_removeProduct log z c :
  in_step log c → in_step log (snd (removeProduct z c)).
Proof.
  intros Hin. unfold removeProduct. cbn [items with_items].
  case_bool_decide as Hlen; cbn [snd]; [by apply in_step_with_items|].
  apply filter_same_length in Hlen. by rewrite Hlen, with_items_same.
Qed.

Lemma in_step_updateQuantity log z q c :
  in_step log c → in_step log (snd (updateQuantity z q c)).
Proof.
  intros Hin. unfold updateQuantity.
  destruct (q <=? 0)%Z; [by apply in_step_removeProduct|].
  destruct (list_find _ _) as [[i x]|]; cbn [snd]; [|done].
  by apply in_step_with_items.
Qed.

Lemma in_step_perform_all log calls c :
  in_step log c → in_step log (perform_all calls c).
Proof.
  revert c. induction calls as [|call calls IH]; intros c Hin; [done|].
  cbn [perform_all fold_left]. apply IH.
  destruct call; cbn [perform];
    auto using in_step_addProduct, in_step_removeProduct,
      in_step_updateQuantity.
Qed.

Lemma in_step_reload log log' c :
  in_step log c →
  ProductCart.new (localStorage c) log'
  = {| items := js_of_items (items c); localStorage := localStorage c;
       console := log' |}.
Proof.
  intros ([Hb Hq] & Hmir & _). unfold ProductCart.new.
  destruct Hmir as [Hslot|[Hslot Hnil]].
  - erewrite loadFromStorage_stored; [done| | |apply JSON_parse_stringify].
    + unfold getItem. cbn [localStorage]. by rewrite Hb, Hslot.
    + intros Heq. pose proof (stringify_truthy (js_of_items (items c))) as Ht.
      by rewrite Heq in Ht.
  - unfold loadFromStorage, getItem. cbn [localStorage].
    by rewrite Hb, Hslot, Hnil.
Qed.

(** X3: over a storage that takes every write and holds nothing yet, after
    whatever calls, a cart constructed anew from the storage has the
    entries of the current cart, and neither cart logged an error. *)
Theorem cart_survives_reload ls log log' (calls : list CartCall) :
  accepting ls → slot ls = None →
  let c := perform_all calls (empty_cart ls log) in
  ProductCart.new (localStorage c) log'
  = {| items := js_of_items (items c); localStorage := localStorage c;
       console := log' |}
  ∧ console c = log.
Proof.
  intros Hacc Hslot c.
  assert (Hin : in_step log c).
  { apply in_step_perform_all. split_and!; [done|by right|done]. }
  split; [by apply (in_step_reload log)|]. by destruct Hin as (_ & _ & ?).
Qed.

Lemma perform_items call c1 c2 :
  items c1 = items c2 → items (perform c1 call) = items (perform c2 call).
Proof.
  intros Heq. destruct call as [p|z|z q]; cbn [perform].
  - unfold addProduct. destruct (negb (validateProduct p)); [done|].
    cbn [snd]. rewrite !items_saveToStorage. cbn [items with_items].
    by rewrite Heq.
  - unfold removeProduct. cbn [items with_items]. rewrite Heq.
    case_bool_decide; cbn [snd]; by rewrite ?items_saveToStorage.
  - unfold updateQuantity, removeProduct. cbn [items with_items]. rewrite Heq.
    destruct (q <=? 0)%Z.
    + case_bool_decide; cbn [snd]; by rewrite ?items_saveToStorage.
    + destruct (list_find _ _) as [[i x]|]; cbn [snd];
        by rewrite ?items_saveToStorage.
Qed.

Lemma saveToStorage_blocked c :
  blocked (localStorage c) = true →
  localStorage (saveToStorage c) = localStorage c
  ∧ console (saveToStorage c) = console c ++ [save_error].
Proof. intros Hb. unfold saveToStorage, setItem. by rewrite Hb. Qed.

Lemma perform_blocked call c :
  blocked (localStorage c) = true →
  localStorage (perform c call) = localStorage c
  ∧ (console (perform c call) = console c
     ∨ console (perform c call) = console c ++ [save_error]).
Proof.
  intros Hb.
  assert (Hsave : ∀ l, localStorage (saveToStorage (with_items l c)) = localStorage c
            ∧ (console (saveToStorage (with_items l c)) = console c
               ∨ console (saveToStorage (with_items l c)) = console c ++ [save_error])).
  { intros l. destruct (saveToStorage_blocked (with_items l c) Hb) as [H1 H2].
    split; [done|by right]. }
  destruct call as [p|z|z q]; cbn [perform].
  - unfold addProduct. destruct (negb (validateProduct p)); [by split; [|left]|].
    apply Hsave.
  - unfold removeProduct. case_bool_decide; [apply Hsave|by split; [|left]].
  - unfold updateQuantity, removeProduct.
    destruct (q <=? 0)%Z.
    + case_bool_decide; [apply Hsave|by split; [|left]].
    + destruct (list_find _ _) as [[i x]|]; [apply Hsave|by split; [|left]].
Qed.

(** X4: what the cart holds never depends on the storage: two carts with
    the same entries have the same entries after the same calls, whatever
    their storages do.  Over a storage that refuses access the calls
    still go through; the storage is left as it was and only save errors
    are logged. *)
Theorem cart_independent_of_storage (calls : list CartCall) c1 c2 :
  items c1 = items c2 →
  items (perform_all calls c1) = items (perform_all calls c2)
  ∧ (blocked (localStorage c1) = true →
     localStorage (perform_all calls c1) = localStorage c1
     ∧ ∃ n, console (perform_all calls c1)
            = console c1 ++ replicate n save_error).
Proof.
  intros Heq. split.
  - revert c1 c2 Heq. induction calls as [|call calls IH]; intros c1 c2 Heq; [done|].
    cbn [perform_all fold_left]. by apply IH, perform_items.
  - clear c2 Heq. revert c1.
    induction calls as [|call calls IH]; intros c1 Hb.
    + split; [done|]. exists 0%nat. by rewrite app_nil_r.
    + cbn [perform_all fold_left].
      destruct (perform_blocked call c1 Hb) as [Hls Hlog].
      destruct (IH (perform c1 call)) as [Hls' [n Hn]]; [by rewrite Hls|].
      unfold perform_all in *. split; [by rewrite Hls', Hls|].
      destruct Hlog as [Hlog|Hlog]; rewrite Hn, Hlog.
      * by exists n.
      * exists (S n). by rewrite <- app_assoc.
Qed.
End cart_storage.

(** ** Adding to the cart and checking out *)

Section page_cart.
Import Page.
Implicit Types (c : Cart) (l : list CartItem) (item : CartItem) (p : Product)
  (pm : ProductManager.State) (ls : LocalStorage) (log : list jsstring).

Lemma getProductById_Some (i : Z) pm p :
  getProductById i pm = Some p → p ∈ products pm ∧ id p = i.
Proof.
  unfold getProductById. intros Hp.
  destruct (list_find _ _) as [[k x]|] eqn:Hfind; [|done].
  injection Hp as ->. apply list_find_Some in Hfind as (Hk & Hid & _).
  split; [|done]. by eapply list_elem_of_lookup_2.
Qed.

Lemma getProductById_None (i : Z) pm :
  getProductById i pm = None ↔ ∀ p, p ∈ products pm → id p ≠ i.
Proof.
  unfold getProductById.
  destruct (list_find _ _) as [[k x]|] eqn:Hfind; simpl.
  - split; [done|]. intros Hall.
    apply list_find_Some in Hfind as (Hk & Hid & _).
    exfalso. apply (Hall x); [by eapply list_elem_of_lookup_2|done].
  - split; [|done]. intros _ p Hp Hid.
    apply list_find_None in Hfind. by eapply Forall_forall in Hfind.
Qed.

(** X5: [getProductById] finds a product of the catalogue with the id,
    none exactly when no product has it, and the product itself where
    ids are distinct. *)
Theorem getProductById_contract (i : Z) pm :
  (∀ p, getProductById i pm = Some p → p ∈ products pm ∧ id p = i)
  ∧ (getProductById i pm = None ↔ ∀ p, p ∈ products pm → id p ≠ i)
  ∧ (NoDup (map id (products pm)) →
     ∀ p, p ∈ products pm → id p = i → getProductById i pm = Some p).
Proof.
  split_and!.
  - apply getProductById_Some.
  - apply getProductById_None.
  - unfold getProductById. intros Hnd p Hp Hid.
    destruct (list_find _ _) as [[k x]|] eqn:Hfind; simpl.
    + apply list_find_Some in Hfind as (Hk & Hidx & _). f_equal.
      apply list_elem_of_lookup in Hp as [j Hj].
      assert (k = j) as ->; [|congruence].
      apply (NoDup_lookup (map id (products pm)) k j i); [done|..];
        change (map ?f ?x) with (f <$> x); rewrite list_lookup_fmap.
      * by rewrite Hk; simpl; f_equal.
      * by rewrite Hj; simpl; f_equal.
    + apply list_find_None in Hfind. by eapply Forall_forall in Hfind.
Qed.

Lemma addProduct_has_id p c :
  validateProduct p = true → id p ∈ ids (items (snd (addProduct p c))).
Proof.
  intros Hp. unfold addProduct. rewrite Hp. cbn [negb snd].
  rewrite items_saveToStorage. cbn [items with_items].
  destruct (list_find _ _) as [[i x]|] eqn:Hfind.
  - apply list_find_Some in Hfind as (Hi & Hid & _).
    rewrite (ids_insert_same _ _ x) by done.
    unfold ids. apply list_elem_of_fmap. exists x.
    split; [done|]. by eapply list_elem_of_lookup_2.
  - unfold ids. rewrite map_app. apply elem_of_app. right.
    by apply list_elem_of_singleton.
Qed.

Lemma addToCart_absent (productId : Z) pm c :
  productId ∉ map id (products pm) →
  addToCart productId pm c = (alert message_not_found, c).
Proof.
  intros Hout. unfold addToCart.
  rewrite (proj2 (getProductById_None productId pm)); [done|].
  intros p Hp Hid. apply Hout. apply list_elem_of_fmap. by exists p.
Qed.

Lemma addToCart_present (productId : Z) pm c :
  Forall (fun p => validateProduct p = true) (products pm) →
  productId ∈ map id (products pm) →
  ∃ product, product ∈ products pm ∧ id product = productId
    ∧ addToCart productId pm c
      = (consoleLog (message_added product), snd (addProduct product c))
    ∧ productId ∈ ids (items (snd (addToCart productId pm c))).
Proof.
  intros Hvalid Hin. unfold addToCart.
  destruct (getProductById productId pm) as [product|] eqn:Hget.
  - destruct (getProductById_Some _ _ _ Hget) as [Hp Hid].
    assert (Hok : validateProduct product = true)
      by by eapply Forall_forall in Hvalid.
    exists product. split_and!; [done..| |].
    + unfold addProduct. by rewrite Hok.
    + unfold addProduct at 1. rewrite Hok. cbn [negb snd].
      rewrite <- Hid. pose proof (addProduct_has_id product c Hok) as Hhas.
      unfold addProduct in Hhas. by rewrite Hok in Hhas.
  - exfalso. apply list_elem_of_fmap in Hin as (p & -> & Hp).
    by apply (proj1 (getProductById_None _ _) Hget p).
Qed.

(** X6: over a catalogue of valid products [addToCart] never shows the
    could-not-add error: for an id the catalogue lacks it alerts "not
    found" and leaves the cart alone, and otherwise it adds a product of
    that id, which the cart then holds. *)
Theorem addToCart_contract (productId : Z) pm c :
  Forall (fun p => validateProduct p = true) (products pm) →
  (productId ∉ map id (products pm) →
   addToCart productId pm c = (alert message_not_found, c))
  ∧ (productId ∈ map id (products pm) →
     ∃ product, product ∈ products pm ∧ id product = productId
       ∧ addToCart productId pm c
         = (consoleLog (message_added product), snd (addProduct product c))
       ∧ productId ∈ ids (items (snd (addToCart productId pm c)))).
Proof.
  intros Hvalid. split; [apply addToCart_absent|by apply addToCart_present].
Qed.

(** X19: once the catalogue is loaded, [addToCart] adds a product for
    each of the ids 1 to 8 and alerts "not found" for any other id; it
    never shows the could-not-add error. *)
Theorem addToCart_after_load (productId : Z) pm0 c :
  let pm := snd (loadProducts pm0) in
  ((1 ≤ productId ≤ 8)%Z →
   ∃ product, product ∈ catalogue ∧ id product = productId
     ∧ addToCart productId pm c
       = (consoleLog (message_added product), snd (addProduct product c)))
  ∧ (¬ (1 ≤ productId ≤ 8)%Z →
     addToCart productId pm c = (alert message_not_found, c)).
Proof.
  intros pm.
  assert (Hids : map id (products pm) = [1; 2; 3; 4; 5; 6; 7; 8]%Z)
    by by vm_compute.
  assert (Hvalid : Forall (fun p => validateProduct p = true) (products pm)).
  { unfold pm, loadProducts, catalogue. cbn [snd products].
    repeat (apply Forall_cons_2; [by vm_compute|]). apply Forall_nil_2. }
  split.
  - intros Hrange.
    destruct (addToCart_present productId pm c Hvalid)
      as (product & Hp & Hid & Hadd & _); [|by exists product].
    rewrite Hids. rewrite !elem_of_cons. lia.
  - intros Hout. apply addToCart_absent. rewrite Hids.
    rewrite !elem_of_cons, elem_of_nil. lia.
Qed.

Lemma clear_items c : items (clear c) = [].
Proof. unfold clear. by rewrite items_saveToStorage. Qed.

(** X8: after the checkout button the cart is empty, with item count and
    total zero.  A cart that was empty already is told so and left
    untouched; otherwise the order is confirmed, and over a storage that
    takes writes a cart constructed anew starts empty. *)
Theorem onCheckout_contract c :
  let after := snd (onCheckout c) in
  items after = []
  ∧ getItemCount after = 0%Z ∧ calculateTotal after = 0%Z
  ∧ (items c = [] → onCheckout c = (message_cart_empty, c))
  ∧ (items c ≠ [] →
     fst (onCheckout c) = message_order_placed
     ∧ (accepting (localStorage c) →
        ∀ log, items (ProductCart.new (localStorage after) log) = JArr [])).
Proof.
  intros after.
  assert (Hempty : items after = []).
  { unfold after, onCheckout. case_bool_decide as Hlen; cbn [snd].
    - by apply nil_length_inv. - apply clear_items. }
  split_and!; [done|..].
  - unfold getItemCount. by rewrite Hempty.
  - unfold calculateTotal. by rewrite Hempty.
  - intros Hnil. unfold onCheckout. by rewrite Hnil.
  - intros Hne. unfold after, onCheckout.
    rewrite bool_decide_false by (by destruct (items c)).
    split; [done|]. intros Hacc log. cbn [snd].
    assert (Hin : in_step (console c) (clear c)).
    { unfold clear. by apply saveToStorage_in_step. }
    rewrite (in_step_reload _ log _ Hin). cbn [items]. by rewrite clear_items.
Qed.
End page_cart.

(** ** The catalogue and the search *)

Section catalogue.
Import Page.
Implicit Types (s q query : jsstring) (pm : ProductManager.State) (p : Product)
  (toLowerCase : jsstring → jsstring).

(** X9: [filterByCategory] returns, in catalogue order, exactly the products
    of the category, and all products for the category "all"; it records
    the result as the current view and leaves the catalogue as it is. *)
Theorem filterByCategory_contract (cat : jsstring) pm :
  let found := fst (filterByCategory cat pm) in
  (∀ p, p ∈ found ↔ p ∈ products pm ∧ (cat = utf16 "all" ∨ category p = cat))
  ∧ sublist found (products pm)
  ∧ (cat = utf16 "all" → found = products pm)
  ∧ filteredProducts (snd (filterByCategory cat pm)) = found
  ∧ products (snd (filterByCategory cat pm)) = products pm.
Proof.
  intros found. unfold found, filterByCategory. cbn [fst snd products filteredProducts].
  case_bool_decide as Hall; split_and!; try done.
  - intros p. tauto.
  - intros p. rewrite list_elem_of_filter. tauto.
  - apply sublist_filter.
Qed.

(** X10: the category filter and the search do not combine: each works on
    the whole catalogue, so the later one wins, and neither changes the
    catalogue; whatever the engine's [toLowerCase]. *)
Theorem filter_and_search_last_wins toLowerCase (cat query : jsstring) pm :
  fst (filterByCategory cat (snd (searchProducts toLowerCase query pm)))
  = fst (filterByCategory cat pm)
  ∧ fst (searchProducts toLowerCase query (snd (filterByCategory cat pm)))
    = fst (searchProducts toLowerCase query pm)
  ∧ products
      (snd (filterByCategory cat (snd (searchProducts toLowerCase query pm))))
    = products pm
  ∧ products
      (snd (searchProducts toLowerCase query (snd (filterByCategory cat pm))))
    = products pm.
Proof.
  unfold filterByCategory, searchProducts.
  destruct (negb (truthy_str (trim query))); by case_bool_decide.
Qed.

Lemma trim_nil_all_space s : trim s = [] ↔ all_space s.
Proof.
  split; [|apply trim_all_space].
  intros Htrim. unfold trim in Htrim.
  destruct (trimStart_split s) as (pre & Heq & Hpre & _).
  destruct (trimEnd_split (trimStart s)) as (post & Heq' & Hpost & _).
  rewrite Htrim in Heq'. rewrite Heq, Heq'. by apply Forall_app.
Qed.

Lemma all_space_infix q s : infix_of q s → all_space s → all_space q.
Proof.
  intros (pre & post & ->) Hs.
  apply Forall_app in Hs as [_ Hs]. by apply Forall_app in Hs as [Hs _].
Qed.

Lemma includes_longer s q q' :
  infix_of q q' → includes s q' = true → includes s q = true.
Proof.
  intros (a & b & ->) Hinc. apply includes_infix in Hinc as (pre & post & ->).
  apply includes_infix. exists (pre ++ a), (b ++ post).
  by rewrite <- !app_assoc.
Qed.

Lemma mentions_longer toLowerCase q q' p :
  infix_of (toLowerCase q) (toLowerCase q') →
  mentions toLowerCase q' p = true → mentions toLowerCase q p = true.
Proof.
  intros Hinf. unfold mentions. rewrite !orb_true_iff.
  intros [H|H]; [left|right]; by eapply includes_longer.
Qed.

Lemma filter_sublist_impl (P Q : Product → Prop) `{∀ x, Decision (P x)}
    `{∀ x, Decision (Q x)} (l : list Product) :
  (∀ x, P x → Q x) → sublist (filter P l) (filter Q l).
Proof.
  intros Himpl. induction l as [|x l IH]; [done|].
  rewrite !filter_cons.
  destruct (decide (P x)) as [HP|HP].
  - rewrite decide_True by auto. by constructor.
  - destruct (decide (Q x)); [by constructor|done].
Qed.

(** X11: typing more never finds more.  When [q] occurs in [q'], and
    lower-cased [q] in lower-cased [q'] (as it does unless a letter of
    [q'] is lower-cased by its context), every product found for [q'] is
    found for [q], in the same order. *)
Theorem search_narrows toLowerCase q q' pm :
  infix_of q q' →
  infix_of (toLowerCase q) (toLowerCase q') →
  sublist (fst (searchProducts toLowerCase q' pm))
          (fst (searchProducts toLowerCase q pm)).
Proof.
  intros Hinf Hlow. rewrite !search_result.
  case_bool_decide as Hq'; case_bool_decide as Hq.
  - done.
  - exfalso. apply Hq. apply trim_nil_all_space.
    apply (all_space_infix q q'); [done|]. by apply trim_nil_all_space.
  - apply sublist_filter.
  - apply filter_sublist_impl. intros p Hp.
    apply Is_true_true. apply Is_true_true in Hp. by eapply mentions_longer.
Qed.

(** X13: through the search box the query is trimmed first, so the page
    finds the products whose name or description contains the trimmed
    text, letter case aside, and all products for a blank box; whatever
    the engine's [toLowerCase]. *)
Theorem onSearch_contract toLowerCase (input : jsstring) pm :
  fst (onSearch toLowerCase input pm)
  = search_as_specified toLowerCase input (products pm)
  ∧ filteredProducts (snd (onSearch toLowerCase input pm))
    = fst (onSearch toLowerCase input pm)
  ∧ products (snd (onSearch toLowerCase input pm)) = products pm.
Proof.
  unfold onSearch. cbn zeta. split_and!.
  - rewrite search_result, trim_idempotent. done.
  - unfold searchProducts. by destruct (negb _).
  - unfold searchProducts. by destruct (negb _).
Qed.
End catalogue.

(** ** The email, name and phone patterns *)

Section patterns_more.
Import FormValidator.
Implicit Types (r : regex) (s : jsstring) (c : N) (f g : N → bool).

Lemma matches_seq_iff r1 r2 s :
  matches (Seq r1 r2) s ↔ ∃ s1 s2, s = s1 ++ s2 ∧ matches r1 s1 ∧ matches r2 s2.
Proof.
  split.
  - inversion 1 as [| |? ? s1 s2 H1 H2| | | | |]; subst. by exists s1, s2.
  - intros (s1 & s2 & -> & H1 & H2). by constructor.
Qed.

Lemma matches_unit_iff f s : matches (Unit f) s ↔ ∃ c, s = [c] ∧ f c = true.
Proof.
  split.
  - inversion 1; subst. eauto.
  - intros (c & -> & Hc). by constructor.
Qed.

Lemma matches_lit c s : matches (lit c) s ↔ s = [c].
Proof.
  unfold lit. rewrite matches_unit_iff. split.
  - intros (d & -> & Hd). apply N.eqb_eq in Hd. by subst.
  - intros ->. exists c. split; [done|apply N.eqb_refl].
Qed.

Lemma matches_plus_unit f s :
  matches (Plus (Unit f)) s ↔ s ≠ [] ∧ all_units f s.
Proof.
  unfold Plus. rewrite matches_seq_iff. split.
  - intros (s1 & s2 & -> & H1 & H2). apply matches_unit_iff in H1 as (c & -> & Hc).
    apply matches_star_unit in H2. split; [done|]. by constructor.
  - intros [Hne Hall]. destruct Hall as [|c s Hc Hall]; [done|].
    exists [c], s. split_and!; [done|by constructor|by apply matches_star_unit].
Qed.

Lemma matches_opt_unit f s : matches (Opt (Unit f)) s ↔ at_most_one f s.
Proof.
  unfold Opt, at_most_one. split.
  - inversion 1 as [| | |? ? ? H1|? ? ? H1| | |]; subst.
    + inversion H1. by left.
    + right. by apply matches_unit_iff.
  - intros [->|Hc].
    + apply matches_alt_l. constructor.
    + apply matches_alt_r. by apply matches_unit_iff.
Qed.

Lemma matches_empty_iff s : matches Empty s ↔ s = [].
Proof. split; [by inversion 1|intros ->; constructor]. Qed.

Lemma email_shape_iff s : test (patterns email) s = true ↔ email_shape s.
Proof.
  { rewrite test_matches. unfold patterns, Concat, email_shape.
    rewrite !matches_seq_iff. split.
    - intros (a & t1 & -> & Ha & Ht1).
      apply matches_seq_iff in Ht1 as (x & t2 & -> & Hx & Ht2).
      apply matches_seq_iff in Ht2 as (b & t3 & -> & Hb & Ht3).
      apply matches_seq_iff in Ht3 as (y & c & -> & Hy & Hc).
      apply matches_lit in Hx as ->. apply matches_lit in Hy as ->.
      apply matches_plus_unit in Ha as [? ?], Hb as [? ?], Hc as [? ?].
      by exists a, b, c.
    - intros (a & b & c & -> & ? & ? & ? & ? & ? & ?).
      exists a, (64 :: b ++ 46 :: c). split_and!; [done|by apply matches_plus_unit|].
      apply matches_seq_iff. exists [64], (b ++ 46 :: c).
      split_and!; [done|by apply matches_lit|].
      apply matches_seq_iff. exists b, (46 :: c).
      split_and!; [done|by apply matches_plus_unit|].
      apply matches_seq_iff. exists [46], c.
      split_and!; [done|by apply matches_lit|by apply matches_plus_unit]. }
Qed.

(** X14: the email pattern takes exactly the addresses of [email_shape];
    such an address has no white space and exactly one [@]. *)
Theorem email_pattern_accepts s :
  (test (patterns email) s = true ↔ email_shape s)
  ∧ (test (patterns email) s = true →
     Forall (fun c => is_js_space c = false) s
     ∧ length (filter (fun c => c = 64) s) = 1%nat).
Proof.
  split; [apply email_shape_iff|]. intros Ht.
  apply email_shape_iff in Ht as (a & b & c & -> & _ & _ & _ & Ha & Hb & Hc).
  assert (Hunit : ∀ l, all_units email_unit l →
            Forall (fun c => is_js_space c = false) l
            ∧ filter (fun c => c = 64) l = []).
  { intros l Hl. induction Hl as [|x l Hx _ [IH1 IH2]]; [done|].
    unfold email_unit in Hx. apply negb_true_iff, orb_false_iff in Hx as [Hs Hat].
    apply N.eqb_neq in Hat. split; [by constructor|].
    unfold jsstring. by rewrite filter_cons_False. }
  destruct (Hunit a Ha) as [Sa Fa], (Hunit b Hb) as [Sb Fb], (Hunit c Hc) as [Sc Fc].
  split.
  - apply Forall_app. split; [done|]. constructor; [done|].
    apply Forall_app. split; [done|]. by constructor.
  - unfold jsstring in *. rewrite filter_app, Fa, filter_cons_True by done.
    rewrite filter_app, Fb, filter_cons_False by done. by rewrite Fc.
Qed.

(** The name pattern takes exactly the non-empty strings of Latin and
    Russian letters, white space, hyphens and apostrophes. *)
Lemma name_pattern_accepts s :
  test (patterns name) s = true ↔ s ≠ [] ∧ all_units name_unit s.
Proof. rewrite test_matches. apply matches_plus_unit. Qed.

Lemma matches_times_digits n s :
  matches (Times n (Unit is_digit)) s ↔ digits n s.
Proof. apply matches_times_unit. Qed.

Lemma phone_shape_iff s : test (patterns phone) s = true ↔ phone_shape s.
Proof.
  { rewrite test_matches. unfold patterns, Concat, phone_shape. split.
    - intros H.
      apply matches_seq_iff in H as (x1 & t0 & -> & Hx1 & H).
      apply matches_seq_iff in H as (x2 & t1 & -> & Hx2 & H).
      apply matches_seq_iff in H as (sp1 & t2 & -> & Hsp1 & H).
      apply matches_seq_iff in H as (lp & t3 & -> & Hlp & H).
      apply matches_seq_iff in H as (d1 & t4 & -> & Hd1 & H).
      apply matches_seq_iff in H as (rp & t5 & -> & Hrp & H).
      apply matches_seq_iff in H as (sp2 & t6 & -> & Hsp2 & H).
      apply matches_seq_iff in H as (d2 & t7 & -> & Hd2 & H).
      apply matches_seq_iff in H as (h1 & t8 & -> & Hh1 & H).
      apply matches_seq_iff in H as (d3 & t9 & -> & Hd3 & H).
      apply matches_seq_iff in H as (h2 & d4 & -> & Hh2 & Hd4).
      apply matches_lit in Hx1 as ->. apply matches_lit in Hx2 as ->.
      exists sp1, lp, d1, rp, sp2, d2, h1, d3, h2, d4.
      split_and!; first [done | by apply matches_opt_unit
                        | by apply matches_times_digits].
    - intros (sp1 & lp & d1 & rp & sp2 & d2 & h1 & d3 & h2 & d4 & -> &
              ? & ? & ? & ? & ? & ? & ? & ? & ? & ?).
      change (43 :: 55 :: ?t) with ([43] ++ [55] ++ t).
      repeat (apply matches_seq; [first [by apply matches_lit
                                       | by apply matches_opt_unit
                                       | by apply matches_times_digits]|]).
      by apply matches_times_digits. }
Qed.

(** X15: the phone pattern takes exactly the numbers of [phone_shape]; they
    have from 12 to 18 code units. *)
Theorem phone_pattern_accepts s :
  (test (patterns phone) s = true ↔ phone_shape s)
  ∧ (test (patterns phone) s = true → (12 ≤ length s ≤ 18)%nat).
Proof.
  split; [apply phone_shape_iff|]. intros Ht.
  apply phone_shape_iff in Ht as (sp1 & lp & d1 & rp & sp2 & d2 & h1 & d3 & h2 & d4 & -> &
    Hsp1 & Hlp & [L1 _] & Hrp & Hsp2 & [L2 _] & Hh1 & [L3 _] & Hh2 & [L4 _]).
  assert (Hopt : ∀ f o, at_most_one f o → (length o ≤ 1)%nat).
  { intros f o [->|(c & -> & _)]; simpl; lia. }
  apply Hopt in Hsp1, Hlp, Hrp, Hsp2, Hh1, Hh2.
  cbn [length]. rewrite !length_app. lia.
Qed.
End patterns_more.

(** ** The form as a whole *)

Section forms.
Import FormValidator.
Implicit Types (form : Form) (acc : Outcome)
  (entries : list (jsstring * ValidationRule)) (s t v : jsstring).









End forms.

(** ** The registration form *)

Section registration.
Import FormValidator.
Implicit Types (form : Form) (s t v : jsstring) (rules : ValidationRule).

Lemma password_shape_iff t :
  test (patterns password) t = true ↔ password_shape t.
Proof.
  rewrite test_matches. unfold patterns, password_shape.
  rewrite !matches_ahead, matches_atleast_unit. split.
  - intros (Hlow & Hup & Hdig & Hlen & Hall).
    apply lookahead_some_unit in Hlow, Hup, Hdig; done.
  - intros (Hlen & Hall & Hlow & Hup & Hdig).
    apply lookahead_some_unit in Hlow, Hup, Hdig; done.
Qed.

Lemma validateField_required_pattern v rules p :
  required rules = true → pattern rules = Some p → custom rules = None →
  validateField v rules = None
  ↔ trim v ≠ []
    ∧ check_minLength rules (trim v) = None
    ∧ check_maxLength rules (trim v) = None
    ∧ test (patterns p) (trim v) = true.
Proof.
  intros Hreq Hpat Hcus. unfold validateField. rewrite Hreq.
  unfold check_pattern, check_custom. rewrite Hpat, Hcus.
  destruct (trim v) as [|c t] eqn:Ht; [by split; [|intros [? _]]|].
  cbn [truthy_str negb andb].
  destruct (check_minLength rules (c :: t)); [by split; [|intros (_ & ? & _)]|].
  destruct (check_maxLength rules (c :: t));
    [by split; [|intros (_ & _ & ? & _)]|].
  destruct (test (patterns p) (c :: t)); simpl; [done|].
  by split; [|intros (_ & _ & _ & ?)].
Qed.

Lemma name_rule_accepts v rules :
  required rules = true → pattern rules = Some name → custom rules = None →
  minLength rules = Some 2%Z → maxLength rules = Some 50%Z →
  validateField v rules = None ↔ name_shape (trim v).
Proof.
  intros Hreq Hpat Hcus Hmin Hmax.
  rewrite (validateField_required_pattern v rules name) by done.
  rewrite name_pattern_accepts. unfold check_minLength, check_maxLength, name_shape.
  rewrite Hmin, Hmax. 
  change (truthy_num 2) with true. change (truthy_num 50) with true.
  cbn [andb]. split.
  - intros (_ & H1 & H2 & _ & Hall). split; [|done].
    destruct (Z.ltb_spec (Z.of_nat (length (trim v))) 2); [done|].
    destruct (Z.ltb_spec 50 (Z.of_nat (length (trim v)))); [done|]. lia.
  - intros [Hlen Hall].
    assert (trim v ≠ []) by (intros E; rewrite E in Hlen; simpl in Hlen; lia).
    destruct (Z.ltb_spec (Z.of_nat (length (trim v))) 2); [lia|].
    destruct (Z.ltb_spec 50 (Z.of_nat (length (trim v)))); [lia|]. done.
Qed.

Lemma plain_rule_accepts v rules p :
  required rules = true → pattern rules = Some p → custom rules = None →
  minLength rules = None → maxLength rules = None →
  test (patterns p) [] = false →
  validateField v rules = None ↔ test (patterns p) (trim v) = true.
Proof.
  intros Hreq Hpat Hcus Hmin Hmax Hnil.
  rewrite (validateField_required_pattern v rules p) by done.
  unfold check_minLength, check_maxLength. rewrite Hmin, Hmax.
  split; [by intros (_ & _ & _ & ?)|]. intros Ht. split_and!; try done.
  intros E. rewrite E in Ht. congruence.
Qed.

(** X18: the registration form is accepted exactly when each of its four
    fields that has a control holds, once trimmed, a name of 2 to 50
    letters, an address, a phone number and a password of the shapes
    above. *)
Theorem registration_accepts form :
  isValid (validateForm form Page.registrationRules) = true
  ↔ field_ok form (utf16 "name") name_shape
    ∧ field_ok form (utf16 "email") email_shape
    ∧ field_ok form (utf16 "phone") phone_shape
    ∧ field_ok form (utf16 "password") password_shape.
Proof.
  unfold validateForm. rewrite validateForm_fold_valid.
  unfold Page.registrationRules, field_ok. cbn [isValid]. split.
  - intros [_ Hall]. split_and!; intros i control Hq.
    + eapply Hall in Hq as Hv;
        [|apply elem_of_cons; left; reflexivity].
      by apply name_rule_accepts in Hv.
    + eapply Hall in Hq as Hv;
        [|apply elem_of_cons; right; apply elem_of_cons; left; reflexivity].
      apply plain_rule_accepts with (p := email) in Hv; [|done..].
      by apply email_shape_iff.
    + eapply Hall in Hq as Hv;
        [|apply elem_of_cons; right; apply elem_of_cons; right; apply elem_of_cons; left; reflexivity].
      apply plain_rule_accepts with (p := phone) in Hv; [|done..].
      by apply phone_shape_iff.
    + eapply Hall in Hq as Hv;
        [|apply elem_of_cons; right; apply elem_of_cons; right; apply elem_of_cons; right; apply elem_of_cons; left; reflexivity].
      apply plain_rule_accepts with (p := password) in Hv; [|done..].
      by apply password_shape_iff.
  - intros (Hn & He & Hp & Hw). split; [done|].
    intros n r i control Hin Hq.
    apply elem_of_cons in Hin as [[= -> ->]|Hin].
    { apply name_rule_accepts; [reflexivity..|]. by eapply Hn. }
    apply elem_of_cons in Hin as [[= -> ->]|Hin].
    { eapply plain_rule_accepts; [reflexivity..|].
      apply email_shape_iff. by eapply He. }
    apply elem_of_cons in Hin as [[= -> ->]|Hin].
    { eapply plain_rule_accepts; [reflexivity..|].
      apply phone_shape_iff. by eapply Hp. }
    apply elem_of_cons in Hin as [[= -> ->]|Hin].
    { eapply plain_rule_accepts; [reflexivity..|].
      apply password_shape_iff. by eapply Hw. }
    by apply elem_of_nil in Hin.
Qed.
End registration.

(** ** Instances of the further properties *)
Section further_examples.
Import FormValidator Page.

(** A shopping trip over an open storage, then a cart constructed anew. *)
Lemma cart_survives_reload_witness :
  ProductCart.new
    (localStorage (perform_all shopping_trip (empty_cart open_storage [])))
    []
  = {| items :=
         js_of_items
           (items (perform_all shopping_trip (empty_cart open_storage [])));
       localStorage :=
         localStorage (perform_all shopping_trip (empty_cart open_storage []));
       console := [] |}
  ∧ console (perform_all shopping_trip (empty_cart open_storage [])) = [].
Proof.
  apply (cart_survives_reload open_storage [] [] shopping_trip).
  - split; reflexivity.
  - reflexivity.
Defined.

(** The same trip without and with access to the storage. *)
Lemma cart_independent_of_storage_witness :
  items (perform_all shopping_trip cart_offline)
  = items (perform_all shopping_trip cart_with_airpods)
  ∧ localStorage (perform_all shopping_trip cart_offline) = closed_storage
  ∧ ∃ n, console (perform_all shopping_trip cart_offline)
         = console cart_offline ++ replicate n save_error.
Proof.
  destruct (cart_independent_of_storage shopping_trip cart_offline
              cart_with_airpods) as [Hitems Hblocked].
  - reflexivity.
  - destruct (Hblocked eq_refl) as [Hstorage Hlog].
    split_and!; [exact Hitems|exact Hstorage|exact Hlog].
Defined.

(** The loaded catalogue and the id of the AirPods. *)
Lemma addToCart_contract_witness :
  (7%Z ∉ map id (products loaded_catalogue) →
   addToCart 7 loaded_catalogue (empty_cart open_storage [])
   = (alert message_not_found, empty_cart open_storage []))
  ∧ (7%Z ∈ map id (products loaded_catalogue) →
     ∃ product, product ∈ products loaded_catalogue ∧ id product = 7%Z
       ∧ addToCart 7 loaded_catalogue (empty_cart open_storage [])
         = (consoleLog (message_added product),
            snd (addProduct product (empty_cart open_storage [])))
       ∧ 7%Z ∈ ids (items (snd (addToCart 7 loaded_catalogue
                                  (empty_cart open_storage []))))).
Proof.
  apply (addToCart_contract 7 loaded_catalogue (empty_cart open_storage [])).
  unfold loaded_catalogue, loadProducts, catalogue. cbn [snd products].
  repeat (apply Forall_cons_2; [vm_compute; reflexivity|]).
  apply Forall_nil_2.
Defined.

(** A query and a longer one. *)
Lemma search_narrows_witness :
  sublist
    (fst (searchProducts toLowerCase_basic (utf16 "iPad Pro") loaded_catalogue))
    (fst (searchProducts toLowerCase_basic (utf16 "Pro") loaded_catalogue)).
Proof.
  apply (search_narrows toLowerCase_basic (utf16 "Pro") (utf16 "iPad Pro")
           loaded_catalogue).
  - exists (utf16 "iPad "), []. vm_compute. reflexivity.
  - exists (utf16 "ipad "), []. vm_compute. reflexivity.
Defined.



End further_examples.
